(** * errbag: a collector of multiple errors

    A shallow embedding of the Go package [errbag] (the revision with
    [New], [stash], [Defer] and [Return]).  Collectors live in a heap and
    are referred to by address, because the program compares them by
    pointer identity ([eb != oeb]) and mutates them in place. *)

From Stdlib Require Import String Ascii DecimalString DecimalNat.
From Stdlib Require Sorting.Sorted.
From stdpp Require Import gmap strings list fin_maps.

Module errbag.

(** ** Values *)

(** A value of Go's [error] interface.
    - [ErrNil] is the nil interface value.
    - [ErrLeaf id text] is any value that does not satisfy [errBagger]
      ([errors.New], [fmt.Errorf], a wrapped error ...); [id] is its identity
      and [text] what its [Error] method returns.
    - [ErrBagger depth p] is a value that satisfies [errBagger] and whose
      [errBag] method returns the collector at address [p]: the pointer
      [*ErrorBag] itself when [depth = 0], and a type that embeds it through
      [depth] levels otherwise ([*myErrorBag], [*otherThing] in the tests).
    Interface values that hold a nil collector pointer are not modelled. *)
Inductive error : Type :=
| ErrNil
| ErrLeaf (id : nat) (text : string)
| ErrBagger (depth : nat) (p : nat).

#[global] Instance error_eq_dec : EqDecision error.
Proof. solve_decision. Defined.

(** [type ErrorFunc = func() error].  A function value is either nil
    ([None]) or a closure, named by an identifier; what the closure does
    when called is given by the environment [call] below. *)
Definition ErrorFunc : Type := option nat.

(** [type ErrorWrapper interface { WrapError(err error) error }] *)
Record ErrorWrapper : Type := { WrapError : error -> error }.

(** [type ErrorBag struct { errs []error; wrapper ErrorWrapper; defers []ErrorFunc }] *)
Record ErrorBag : Type := mkErrorBag {
  errs : list error;
  wrapper : option ErrorWrapper;
  defers : list ErrorFunc
}.

(** [new(ErrorBag)] *)
Definition zero_ErrorBag : ErrorBag :=
  {| errs := []; wrapper := None; defers := [] |}.

Definition set_errs (b : ErrorBag) (l : list error) : ErrorBag :=
  {| errs := l; wrapper := wrapper b; defers := defers b |}.

(** An element of a variadic [...interface{}] parameter: the nil interface,
    an [error], an [ErrorFunc], or a value of any other type. *)
Inductive item : Type :=
| ItemNil
| ItemError (v : error)
| ItemFunc (v : ErrorFunc)
| ItemOther.

(** [AsErrorBag]: the collector behind [err], or nil. *)
Definition AsErrorBag (err : error) : option nat :=
  match err with
  | ErrBagger _ p => Some p
  | _ => None
  end.

(** A [*ErrorBag] converted to the [error] interface ([return eb]). *)
Definition as_error (eb : nat) : error := ErrBagger 0 eb.

(** [fmt.Sprintf("%d", n)] for a length. *)
Definition decimal (n : nat) : string :=
  NilEmpty.string_of_uint (Nat.to_uint n).

(** ** The state and the monad of the program *)

(** The result of running a piece of the program: it returns, it panics, or
    the model runs out of fuel (the recursion of [add] and [Merge] through
    collectors stored in collectors need not end). *)
Inductive outcome (A : Type) : Type :=
| Done (a : A)
| Panic
| OutOfFuel.
Arguments Done {A} a.
Arguments Panic {A}.
Arguments OutOfFuel {A}.

Section Model.

(** Closures act on a world of their own (files to close, counters ...);
    they do not touch collectors.  [call f w] is the world after closure
    [f] ran in [w], and the error it returned. *)
Context {World : Type} (call : nat -> World -> World * error).

Record State : Type := mkState {
  bags : gmap nat ErrorBag;   (* the collectors, by address *)
  world : World;              (* what closures read and write *)
  invoked : list nat          (* the closures called so far, oldest first *)
}.

Definition M (A : Type) : Type := State -> outcome (A * State).

Definition ret {A} (a : A) : M A := fun s => Done (a, s).

Definition bind {A B} (c : M A) (k : A -> M B) : M B :=
  fun s =>
    match c s with
    | Done (a, s') => k a s'
    | Panic => Panic
    | OutOfFuel => OutOfFuel
    end.

Definition panic {A} : M A := fun _ => Panic.
Definition out_of_fuel {A} : M A := fun _ => OutOfFuel.

Notation "x <- c ;; k" := (bind c (fun x => k))
  (at level 100, c at next level, right associativity).
Notation "c ;;; k" := (bind c (fun _ => k))
  (at level 100, right associativity).

(** Reading the struct behind a pointer; a nil or dangling pointer panics. *)
Definition load (eb : nat) : M ErrorBag :=
  fun s => match bags s !! eb with
           | Some b => Done (b, s)
           | None => Panic
           end.

Definition store (eb : nat) (b : ErrorBag) : M unit :=
  fun s => Done (tt, {| bags := <[eb := b]> (bags s);
                        world := world s; invoked := invoked s |}).

(** [new(ErrorBag)] *)
Definition alloc : M nat :=
  fun s => let eb := fresh (dom (bags s)) in
           Done (eb, {| bags := <[eb := zero_ErrorBag]> (bags s);
                        world := world s; invoked := invoked s |}).

(** Calling the closure [f]. *)
Definition invoke (f : nat) : M error :=
  fun s => let (w, r) := call f (world s) in
           Done (r, {| bags := bags s; world := w;
                       invoked := invoked s ++ [f] |}).

(** [for _, x := range l { body(x) }], the value of [body] dropped. *)
Fixpoint for_each {A B} (l : list A) (body : A -> M B) : M unit :=
  match l with
  | [] => ret tt
  | x :: l' => body x ;;; for_each l' body
  end.

(** [eb.errs = append(eb.errs, err)] *)
Definition append_err (eb : nat) (err : error) : M unit :=
  b <- load eb ;;
  store eb (set_errs b (errs b ++ [err])).

(** ** The methods *)

(** [ErrorOrNil]; the receiver may be nil. *)
Definition ErrorOrNil (eb : option nat) : M error :=
  match eb with
  | None => ret ErrNil
  | Some p =>
      b <- load p ;;
      if decide (length (errs b) = 0) then ret ErrNil else ret (as_error p)
  end.

Definition AsError (eb : nat) : M error := ret (as_error eb).

Definition HasErrors (eb : nat) : M bool :=
  b <- load eb ;; ret (bool_decide (0 < length (errs b))).

Definition Size (eb : nat) : M nat :=
  b <- load eb ;; ret (length (errs b)).

Definition Errors (eb : nat) : M (list error) :=
  b <- load eb ;; ret (errs b).

(** [add] and [Merge] call each other; each call uses one unit of fuel. *)
Fixpoint add (fuel : nat) (eb : nat) (err : error) {struct fuel} : M error :=
  match fuel with
  | O => out_of_fuel
  | S fuel' =>
      match err with
      | ErrNil => ErrorOrNil (Some eb)
      | _ =>
          match AsErrorBag err with
          | Some oeb => Merge fuel' eb (Some oeb)
          | None => append_err eb err ;;; ret (as_error eb)
          end
      end
  end
with Merge (fuel : nat) (eb : nat) (oeb : option nat) {struct fuel} : M error :=
  match fuel with
  | O => out_of_fuel
  | S fuel' =>
      match oeb with
      | None => ret (as_error eb)
      | Some o =>
          (if decide (eb <> o)
           then b <- load o ;; for_each (errs b) (fun err => add fuel' eb err)
           else ret tt) ;;;
          ret (as_error eb)
      end
  end.

Definition stash (fuel : nat) (eb : nat) (items : list item) : M unit :=
  for_each items (fun i =>
    match i with
    | ItemNil => ret tt
    | ItemError v => add fuel eb v ;;; ret tt
    | ItemFunc None => ret tt
    | ItemFunc (Some f) => r <- invoke f ;; add fuel eb r ;;; ret tt
    | ItemOther => panic
    end).

Definition New (fuel : nat) (err : error) (others : list item) : M (option nat) :=
  match err with
  | ErrNil => ret None
  | _ =>
      match AsErrorBag err with
      | Some eb => stash fuel eb others ;;; ret (Some eb)
      | None =>
          eb <- alloc ;;
          add fuel eb err ;;;
          stash fuel eb others ;;;
          ret (Some eb)
      end
  end.

(** [Add]; the receiver may be nil. *)
Definition Add (fuel : nat) (eb : option nat) (err : error) (errors : list item)
  : M error :=
  match err with
  | ErrNil => ErrorOrNil eb
  | _ =>
      p <- (match eb with Some p => ret p | None => alloc end) ;;
      add fuel p err ;;;
      stash fuel p errors ;;;
      ErrorOrNil (Some p)
  end.

(** [Update] (deprecated) *)
Definition Update (fuel : nat) (eb : nat) (l : list error) : M error :=
  for_each l (fun err => add fuel eb err) ;;; ret (as_error eb).

Definition Defer (eb : nat) (ef : ErrorFunc) : M unit :=
  b <- load eb ;;
  store eb {| errs := errs b; wrapper := wrapper b; defers := defers b ++ [ef] |}.

(** [df()] for a function value; calling nil panics. *)
Definition call_func (df : ErrorFunc) : M error :=
  match df with
  | Some f => invoke f
  | None => panic
  end.

Definition Return (fuel : nat) (eb : nat) (errors : list item) : M error :=
  stash fuel eb errors ;;;
  b <- load eb ;;
  for_each (defers b) (fun df =>
    err <- call_func df ;;
    if decide (err <> ErrNil) then append_err eb err else ret tt) ;;;
  ErrorOrNil (Some eb).

(** The method [Visit]: the visitor runs on every stored error. *)
Definition Visit {B} (eb : nat) (v : error -> M B) : M unit :=
  b <- load eb ;; for_each (errs b) v.

(** The function [Visit]. *)
Definition Visit_error {B} (err : error) (v : error -> M B) : M unit :=
  match AsErrorBag err with
  | Some eb => Visit eb v
  | None => ret tt
  end.

Definition WithWrapper (w : option ErrorWrapper) : M nat :=
  eb <- alloc ;;
  store eb {| errs := []; wrapper := w; defers := [] |} ;;;
  ret eb.

(** The method [ErrorWrapper], which installs a wrapper. *)
Definition set_ErrorWrapper (eb : nat) (w : option ErrorWrapper) : M unit :=
  b <- load eb ;;
  store eb {| errs := errs b; wrapper := w; defers := defers b |}.

Fixpoint Wrap (fuel : nat) (eb : nat) (err : error) {struct fuel} : M error :=
  match fuel with
  | O => out_of_fuel
  | S fuel' =>
      match err with
      | ErrNil => ret (as_error eb)
      | _ =>
          b <- load eb ;;
          match wrapper b with
          | None => Add fuel' (Some eb) err []
          | Some w =>
              match AsErrorBag err with
              | Some oeb =>
                  (if decide (oeb <> eb)
                   then Visit oeb (fun err => Wrap fuel' eb err)
                   else ret tt) ;;;
                  ret (as_error eb)
              | None => Add fuel' (Some eb) (WrapError w err) []
              end
          end
      end
  end.

(** [Error]: the text of a collector.  The text of a stored error that is
    itself a collector is computed by the same method. *)
Fixpoint Error (fuel : nat) (eb : nat) {struct fuel} : M string :=
  match fuel with
  | O => out_of_fuel
  | S fuel' =>
      b <- load eb ;;
      let l := length (errs b) in
      if decide (l = 1) then
        match errs b with
        | e :: _ =>
            match e with
            | ErrNil => panic
            | ErrLeaf _ text => ret text
            | ErrBagger _ p => Error fuel' p
            end
        | [] => panic
        end
      else if decide (1 < l) then
        ret ("encountered " ++ decimal l ++ " errors")%string
      else ret ""%string
  end.

(** [err.Error()] for a value of the [error] interface. *)
Definition error_text (fuel : nat) (err : error) : M string :=
  match err with
  | ErrNil => panic
  | ErrLeaf _ text => ret text
  | ErrBagger _ p => Error fuel p
  end.

(** [sort.Slice(x, less)] is Go's standard library, not this package: it
    is a parameter of the model, characterised where needed by what its
    documentation promises (the slice is reordered so that [less] never
    holds from a later element to an earlier one; stability is not
    promised). *)
Context (sort_Slice : forall A : Type, list A -> (A -> A -> bool) -> list A).

Fixpoint map_M {A B} (f : A -> M B) (l : list A) : M (list B) :=
  match l with
  | [] => ret []
  | x :: l' => y <- f x ;; ys <- map_M f l' ;; ret (y :: ys)
  end.

(** [errs[i].Error() < errs[j].Error()], on errors paired with their text. *)
Definition less_text (x y : error * string) : bool :=
  String.ltb (snd x) (snd y).

(** [Sorted]: [errs := eb.Errors()] is the collector's own slice (the
    conversion [[]error(eb.errs)] does not copy), [sort.Slice] reorders it in
    place, and it is returned.  The texts that [less] reads are computed
    before the sort here, while Go computes them at each comparison. *)
Definition Sorted (fuel : nat) (eb : nat) : M (list error) :=
  l <- Errors eb ;;
  texts <- map_M (error_text fuel) l ;;
  let sorted := (sort_Slice _ (zip l texts) less_text).*1 in
  b <- load eb ;;
  store eb (set_errs b sorted) ;;;
  ret sorted.

End Model.

Notation "x <- c ;; k" := (bind c (fun x => k))
  (at level 100, c at next level, right associativity).
Notation "c ;;; k" := (bind c (fun _ => k))
  (at level 100, right associativity).

(** ** Specification-side definitions

    These follow the words of the specification, and are compared with the
    program in the theorems below. *)

(** A stored error that is neither nil nor a collector. *)
Definition is_leaf (err : error) : Prop :=
  match err with
  | ErrLeaf _ _ => True
  | _ => False
  end.

#[global] Instance is_leaf_dec err : Decision (is_leaf err).
Proof. destruct err; simpl; apply _. Defined.

Definition is_collector (err : error) : Prop := is_Some (AsErrorBag err).

#[global] Instance is_collector_dec err : Decision (is_collector err).
Proof. unfold is_collector. apply _. Defined.

Fixpoint flatten_all (f : error -> option (list error)) (l : list error)
  : option (list error) :=
  match l with
  | [] => Some []
  | e :: l' =>
      match f e, flatten_all f l' with
      | Some a, Some b => Some (a ++ b)
      | _, _ => None
      end
  end.

(** Flattening: what inserting [err] into the collector [eb] contributes,
    read off the heap [h].  Nil contributes nothing; a value that is not a
    collector contributes itself; the collector [eb] itself contributes
    nothing; any other collector contributes the flattening of each of its
    stored errors, in order.  [None] when the nesting is deeper than [n] or a
    collector is missing from the heap. *)
Fixpoint flatten (n : nat) (h : gmap nat ErrorBag) (eb : nat) (err : error)
  : option (list error) :=
  match n with
  | O => None
  | S n' =>
      match err with
      | ErrNil => Some []
      | ErrLeaf _ _ => Some [err]
      | ErrBagger _ o =>
          if decide (eb = o) then Some []
          else match h !! o with
               | Some b => flatten_all (flatten n' h eb) (errs b)
               | None => None
               end
      end
  end.

(** The flattened count of [err]. *)
Definition flat_count (n : nat) (h : gmap nat ErrorBag) (eb : nat) (err : error) : nat :=
  match flatten n h eb err with
  | Some l => length l
  | None => 0
  end.


(** The state in which the collector [eb] has the errors [l] appended. *)
Definition grow {World} (eb : nat) (l : list error) (s : @State World) : State :=
  {| bags := alter (fun b => set_errs b (errs b ++ l)) eb (bags s);
     world := world s;
     invoked := invoked s |}.

(** The state after extras were folded into the collector [eb]: they
    called the closures [fs], left the world [w] and contributed the errors
    [l]. *)
Definition folded {World} (eb : nat) (l : list error) (w : World)
    (fs : list nat) (s : @State World) : State :=
  {| bags := bags (grow eb l s); world := w; invoked := invoked s ++ fs |}.


Section Spec.
Context {World : Type} (call : nat -> World -> World * error).

(** Calling the closures [fs] one after the other: the final world and the
    value each call returned. *)
Fixpoint run_all (fs : list nat) (w : World) : World * list error :=
  match fs with
  | [] => (w, [])
  | f :: fs' =>
      let (w1, r) := call f w in
      let (w2, rs) := run_all fs' w1 in
      (w2, r :: rs)
  end.

(** Folding extras: nil items are skipped, an error is inserted, a closure is
    called at once and what it returns is inserted, anything else is a
    programming error.  The result is the final world, the closures called
    and the errors contributed, or [None]. *)
Fixpoint fold_items (n : nat) (h : gmap nat ErrorBag) (eb : nat)
    (items : list item) (w : World) : option (World * list nat * list error) :=
  match items with
  | [] => Some (w, [], [])
  | i :: rest =>
      match i with
      | ItemNil | ItemFunc None => fold_items n h eb rest w
      | ItemError v =>
          match flatten n h eb v, fold_items n h eb rest w with
          | Some l, Some (w', fs, l') => Some (w', fs, l ++ l')
          | _, _ => None
          end
      | ItemFunc (Some f) =>
          let (w1, r) := call f w in
          match flatten n h eb r, fold_items n h eb rest w1 with
          | Some l, Some (w', fs, l') => Some (w', f :: fs, l ++ l')
          | _, _ => None
          end
      | ItemOther => None
      end
  end.

End Spec.

(** ** A sample instance

    Concrete closures, a wrapper, a sort and a heap, on which the program
    can be run. *)

(** The value a run returns, if it returns. *)
Definition value {A S : Type} (o : outcome (A * S)) : option A :=
  match o with
  | Done (a, _) => Some a
  | _ => None
  end.

(** The world counts the closure calls.  Closure 0 succeeds, closure 9
    returns the collector at address 3, every other closure fails. *)
Definition sample_call (f : nat) (w : nat) : nat * error :=
  (S w,
   match f with
   | 0 => ErrNil
   | 9 => ErrBagger 0 3
   | _ => ErrLeaf (100 + f) "close failed"
   end).

(** A wrapper that tags plain errors and passes tagged ones through, like
    the wrappers of the package's tests. *)
Definition tagger : ErrorWrapper :=
  {| WrapError := fun err =>
       match err with
       | ErrLeaf i t =>
           if String.prefix "tagged: " t then err
           else ErrLeaf i ("tagged: " ++ t)
       | _ => err
       end |}.

Definition sample_A : ErrorBag :=
  {| errs := [ErrLeaf 1 "first error"; ErrLeaf 2 "second error"];
     wrapper := Some tagger;
     defers := [Some 1; Some 0] |}.

Definition sample_B : ErrorBag :=
  {| errs := [ErrLeaf 3 "b"; ErrLeaf 4 "a"; ErrLeaf 5 "c"];
     wrapper := None;
     defers := [] |}.

(** Collector 1 has a wrapper and two registered closures, collector 2
    holds three plain errors, collector 3 is empty. *)
Definition sample_state : @State nat :=
  {| bags := {[ 1 := sample_A; 2 := sample_B; 3 := zero_ErrorBag ]};
     world := 0;
     invoked := [] |}.

(** Three fresh collectors. *)
Definition fresh_state : @State nat :=
  {| bags := {[ 1 := zero_ErrorBag; 2 := zero_ErrorBag; 3 := zero_ErrorBag ]};
     world := 0;
     invoked := [] |}.

(** Insertion sort, one function that meets the contract of [sort.Slice]. *)
Fixpoint insert_by {A} (less : A -> A -> bool) (x : A) (l : list A) : list A :=
  match l with
  | [] => [x]
  | y :: l' => if less x y then x :: l else y :: insert_by less x l'
  end.

Definition insertion_sort (A : Type) (l : list A) (less : A -> A -> bool) : list A :=
  foldr (insert_by less) [] l.

(** ** The first revision of the package ([errbag.go])

    The first revision has no extras, no deferred closures and no [Merge]:
    [Add] and [Update] call each other, [ErrorOrNil] does not test the
    receiver for nil, and [Add] always returns the receiver. *)

Module v1.
Section Model.
Context {World : Type}.

Definition ErrorOrNil (eb : nat) : @M World error :=
  b <- load eb ;;
  if decide (0 < length (errs b)) then ret (as_error eb) else ret ErrNil.

Fixpoint Add (fuel : nat) (eb : nat) (err : error) {struct fuel} : @M World error :=
  match fuel with
  | O => out_of_fuel
  | S fuel' =>
      match err with
      | ErrNil => ret (as_error eb)
      | _ =>
          match AsErrorBag err with
          | Some oeb =>
              if decide (oeb = eb) then ret (as_error eb)
              else l <- Errors oeb ;; Update fuel' eb l
          | None => append_err eb err ;;; ret (as_error eb)
          end
      end
  end
with Update (fuel : nat) (eb : nat) (l : list error) {struct fuel} : @M World error :=
  match fuel with
  | O => out_of_fuel
  | S fuel' =>
      for_each l (fun err => Add fuel' eb err) ;;; ret (as_error eb)
  end.

Fixpoint Wrap (fuel : nat) (eb : nat) (err : error) {struct fuel} : @M World error :=
  match fuel with
  | O => out_of_fuel
  | S fuel' =>
      match err with
      | ErrNil => ret (as_error eb)
      | _ =>
          b <- load eb ;;
          match wrapper b with
          | None => Add fuel' eb err
          | Some w =>
              match AsErrorBag err with
              | Some oeb =>
                  (if decide (oeb <> eb)
                   then Visit oeb (fun err => Wrap fuel' eb err)
                   else ret tt) ;;;
                  ret (as_error eb)
              | None => Add fuel' eb (WrapError w err)
              end
          end
      end
  end.

End Model.
End v1.

(** ** More specification-side definitions *)

(** Every collector of the heap stores plain errors only. *)
Definition flat_heap (h : gmap nat ErrorBag) : Prop :=
  forall o b, h !! o = Some b -> Forall is_leaf (errs b).

(** Collector 3 has registered closure 9, which returns collector 3. *)
Definition looping_state : @State nat :=
  {| bags := {[ 1 := zero_ErrorBag;
                3 := {| errs := []; wrapper := None; defers := [Some 9] |} ]};
     world := 0;
     invoked := [] |}.

(** Collector 1 has registered closure 0 and then a nil function. *)
Definition nil_defer_state : @State nat :=
  {| bags := {[ 1 := {| errs := []; wrapper := None; defers := [Some 0; None] |} ]};
     world := 0;
     invoked := [] |}.

(** ** Properties *)

Section Proofs.
Context {World : Type} (call : nat -> World -> World * error).
Implicit Types (s : @State World) (eb o : nat) (err e : error)
  (l : list error) (b : ErrorBag) (h : gmap nat ErrorBag).

(** *** The heap update [grow] *)

Lemma set_errs_id b : set_errs b (errs b ++ []) = b.
Proof. destruct b; unfold set_errs; simpl. by rewrite app_nil_r. Qed.

Lemma grow_nil eb s : grow eb [] s = s.
Proof.
  destruct s as [h w i]. unfold grow; simpl. f_equal.
  apply alter_id. intros b _. apply set_errs_id.
Qed.

Lemma grow_grow eb l1 l2 s : grow eb l2 (grow eb l1 s) = grow eb (l1 ++ l2) s.
Proof.
  destruct s as [h w i]. unfold grow; simpl. f_equal.
  rewrite alter_alter_eq. apply alter_ext. intros b _.
  unfold set_errs; simpl. by rewrite app_assoc.
Qed.

Lemma lookup_grow_eq eb l s b :
  bags s !! eb = Some b ->
  bags (grow eb l s) !! eb = Some (set_errs b (errs b ++ l)).
Proof. intros H. unfold grow; simpl. by rewrite lookup_alter_eq, H. Qed.

Lemma lookup_grow_ne eb o l s : o <> eb -> bags (grow eb l s) !! o = bags s !! o.
Proof. intros H. unfold grow; simpl. by rewrite lookup_alter_ne. Qed.

Lemma lookup_grow_is_Some eb o l s :
  is_Some (bags s !! o) -> is_Some (bags (grow eb l s) !! o).
Proof.
  intros [b Hb]. destruct (decide (o = eb)) as [->|Hne].
  - rewrite (lookup_grow_eq _ _ _ _ Hb). eauto.
  - rewrite lookup_grow_ne by done. eauto.
Qed.

Lemma append_err_grow eb e s :
  is_Some (bags s !! eb) -> append_err eb e s = Done (tt, grow eb [e] s).
Proof.
  intros [b Hb]. unfold append_err, bind, load, store. rewrite Hb.
  unfold grow. do 3 f_equal. apply map_eq. intros i.
  destruct (decide (i = eb)) as [->|Hne].
  - by rewrite lookup_insert_eq, lookup_alter_eq, Hb.
  - by rewrite lookup_insert_ne, lookup_alter_ne.
Qed.

(** *** The monad *)

Lemma bind_Done {A B} (c : M A) (k : A -> M B) s a s' :
  c s = Done (a, s') -> bind c k s = k a s'.
Proof. intros H. unfold bind. by rewrite H. Qed.

Lemma bind_Done_inv {A B} (c : M A) (k : A -> M B) s x :
  bind c k s = Done x -> exists a s', c s = Done (a, s') /\ k a s' = Done x.
Proof.
  unfold bind. destruct (c s) as [[a s']| |]; [|done|done]. eauto.
Qed.

Lemma load_Done eb s b : bags s !! eb = Some b -> load eb s = Done (b, s).
Proof. intros H. unfold load. by rewrite H. Qed.

Lemma load_Done_inv eb s b s' :
  load eb s = Done (b, s') -> s' = s /\ bags s !! eb = Some b.
Proof. unfold load. destruct (bags s !! eb); naive_solver. Qed.

Lemma ErrorOrNil_Done eb s b :
  bags s !! eb = Some b ->
  ErrorOrNil (Some eb) s
  = Done (if decide (length (errs b) = 0) then ErrNil else as_error eb, s).
Proof.
  intros H. unfold ErrorOrNil. rewrite (bind_Done _ _ _ _ _ (load_Done _ _ _ H)).
  by case_decide.
Qed.

(** *** Unfolding [add] and [Merge] *)

Lemma add_S fuel eb err :
  @add World (S fuel) eb err =
  match err return M error with
  | ErrNil => ErrorOrNil (Some eb)
  | _ => match AsErrorBag err return M error with
         | Some oeb => Merge fuel eb (Some oeb)
         | None => append_err eb err ;;; ret (as_error eb)
         end
  end.
Proof. reflexivity. Qed.

Lemma Merge_S fuel eb (oeb : option nat) :
  @Merge World (S fuel) eb oeb =
  match oeb with
  | None => ret (as_error eb)
  | Some o =>
      (if decide (eb <> o)
       then b <- load o ;; for_each (errs b) (fun err => add fuel eb err)
       else ret tt) ;;;
      ret (as_error eb)
  end.
Proof. reflexivity. Qed.

(** *** Flattening *)

Lemma flatten_all_ext (f g : error -> option (list error)) l :
  (forall e, f e = g e) -> flatten_all f l = flatten_all g l.
Proof. intros H. induction l as [|e l IH]; simpl; [done|]. by rewrite H, IH. Qed.

Lemma flatten_all_Some (f : error -> option (list error)) e l0 l :
  flatten_all f (e :: l0) = Some l ->
  exists la lb, f e = Some la /\ flatten_all f l0 = Some lb /\ l = la ++ lb.
Proof.
  simpl. destruct (f e) as [la|]; [|done].
  destruct (flatten_all f l0) as [lb|]; [|done]. naive_solver.
Qed.

(** Flattening into [eb] never reads the collector [eb] itself. *)
Lemma flatten_agree n h1 h2 eb err :
  (forall o, o <> eb -> h1 !! o = h2 !! o) ->
  flatten n h1 eb err = flatten n h2 eb err.
Proof.
  intros Hag. revert err. induction n as [|n IH]; intros err; simpl; [done|].
  destruct err as [| |d o]; try done. case_decide; [done|].
  rewrite Hag by done. destruct (h2 !! o); [|done]. by apply flatten_all_ext.
Qed.

Lemma flatten_grow n eb l s err :
  flatten n (bags (grow eb l s)) eb err = flatten n (bags s) eb err.
Proof. apply flatten_agree. intros o Ho. by apply lookup_grow_ne. Qed.

Lemma flatten_leaves n h eb err l :
  flatten n h eb err = Some l -> Forall is_leaf l.
Proof.
  revert err l. induction n as [|n IH]; intros err l; simpl; [done|].
  destruct err as [|i t|d o].
  - intros [= <-]. constructor.
  - intros [= <-]. by repeat constructor.
  - case_decide; [intros [= <-]; constructor|].
    destruct (h !! o) as [b|]; [|done].
    generalize (errs b). intros l0. revert l.
    induction l0 as [|e l0 IHl]; intros l.
    + intros [= <-]. constructor.
    + intros (la & lb & Ha & Hb & ->)%flatten_all_Some.
      apply Forall_app. split; [by eapply IH | by apply IHl].
Qed.

(** With enough fuel, [add] appends exactly the flattening of its argument. *)
Lemma for_each_add_flatten m n eb :
  (forall err s l, is_Some (bags s !! eb) ->
     flatten n (bags s) eb err = Some l ->
     exists r, add m eb err s = Done (r, grow eb l s)) ->
  forall l0 s l, is_Some (bags s !! eb) ->
    flatten_all (flatten n (bags s) eb) l0 = Some l ->
    for_each l0 (fun err => add m eb err) s = Done (tt, grow eb l s).
Proof.
  intros Hadd. induction l0 as [|e l0 IH]; intros s l Heb.
  - intros [= <-]. by rewrite grow_nil.
  - intros (la & lb & Ha & Hb & ->)%flatten_all_Some.
    destruct (Hadd _ _ _ Heb Ha) as [r Hr]. simpl.
    rewrite (bind_Done _ _ _ _ _ Hr). rewrite <- grow_grow. apply IH.
    + by apply lookup_grow_is_Some.
    + rewrite <- Hb. apply flatten_all_ext. intros e'. apply flatten_grow.
Qed.

Lemma add_flatten n : forall fuel eb err s l,
  2 * n <= fuel -> is_Some (bags s !! eb) ->
  flatten n (bags s) eb err = Some l ->
  exists r, add fuel eb err s = Done (r, grow eb l s)
            /\ (err <> ErrNil -> r = as_error eb).
Proof.
  induction n as [|n IH]; intros fuel eb err s l Hfuel Heb; simpl; [done|].
  destruct fuel as [|[|m]]; [lia|lia|]. rewrite add_S.
  destruct err as [|i t|d o].
  - intros [= <-]. destruct Heb as [b Hb].
    rewrite (ErrorOrNil_Done _ _ _ Hb), grow_nil. eexists. by split.
  - intros [= <-]. simpl.
    rewrite (bind_Done _ _ _ _ _ (append_err_grow _ _ _ Heb)).
    eexists. by split.
  - unfold AsErrorBag. rewrite Merge_S. case_decide as Hd.
    + intros [= <-]. rewrite decide_False by naive_solver.
      unfold bind, ret. rewrite grow_nil. eexists. by split.
    + rewrite decide_True by done.
      destruct (bags s !! o) as [b|] eqn:Ho; [|done]. intros Hfl.
      exists (as_error eb). split; [|done].
      erewrite bind_Done; [reflexivity|].
      rewrite (bind_Done _ _ _ _ _ (load_Done _ _ _ Ho)).
      apply (for_each_add_flatten m n); [|done|done].
      intros err' s' l' Heb' Hfl'.
      destruct (IH m eb err' s' l') as (r & Hr & _); [lia|done|done|]. eauto.
Qed.

(** Whatever [add] and [Merge] are given, all they do is append values that
    are not collectors to the receiver. *)
Lemma for_each_grows {A B} (body : A -> M B) eb :
  (forall x s r s', body x s = Done (r, s') ->
     exists l, s' = grow eb l s /\ Forall is_leaf l) ->
  forall (xs : list A) s u s', for_each xs body s = Done (u, s') ->
    exists l, s' = grow eb l s /\ Forall is_leaf l.
Proof.
  intros Hbody. induction xs as [|x xs IH]; intros s u s'; simpl.
  - intros [= _ <-]. exists []. by rewrite grow_nil.
  - intros (r & s1 & H1 & H2)%bind_Done_inv.
    destruct (Hbody _ _ _ _ H1) as (l1 & -> & Hl1).
    destruct (IH _ _ _ H2) as (l2 & -> & Hl2).
    exists (l1 ++ l2). rewrite grow_grow. split; [done|]. by apply Forall_app.
Qed.

Lemma add_Merge_grow fuel :
  (forall eb err s r s', add fuel eb err s = Done (r, s') ->
     exists l, s' = grow eb l s /\ Forall is_leaf l)
  /\ (forall eb (oeb : option nat) s r s', Merge fuel eb oeb s = Done (r, s') ->
     exists l, s' = grow eb l s /\ Forall is_leaf l).
Proof.
  induction fuel as [|fuel [IHadd IHMerge]]; [split; intros; discriminate|].
  split.
  - intros eb err s r s'. rewrite add_S. destruct err as [|i t|d o].
    + unfold ErrorOrNil. intros (b & s1 & (-> & Hb)%load_Done_inv & H)%bind_Done_inv.
      exists []. rewrite grow_nil. split; [|done]. by case_decide; injection H.
    + unfold AsErrorBag.
      intros ([] & s1 & H1 & [= _ <-])%bind_Done_inv.
      assert (is_Some (bags s !! eb)) as Heb.
      { apply bind_Done_inv in H1 as (b & ? & (-> & Hb)%load_Done_inv & _). eauto. }
      rewrite (append_err_grow _ _ _ Heb) in H1. injection H1 as <-.
      exists [ErrLeaf i t]. split; [done|]. by repeat constructor.
    + unfold AsErrorBag. apply IHMerge.
  - intros eb oeb s r s'. rewrite Merge_S. destruct oeb as [o|].
    + intros ([] & s1 & H1 & [= _ <-])%bind_Done_inv. case_decide.
      * apply bind_Done_inv in H1 as (b & ? & (-> & Hb)%load_Done_inv & H1).
        revert H1. apply for_each_grows. intros x. apply IHadd.
      * injection H1 as <-. exists []. by rewrite grow_nil.
    + intros [= _ <-]. exists []. by rewrite grow_nil.
Qed.

Lemma add_grow fuel eb err s r s' :
  add fuel eb err s = Done (r, s') ->
  exists l, s' = grow eb l s /\ Forall is_leaf l.
Proof. apply add_Merge_grow. Qed.

Lemma Merge_grow fuel eb (oeb : option nat) s r s' :
  Merge fuel eb oeb s = Done (r, s') ->
  exists l, s' = grow eb l s /\ Forall is_leaf l.
Proof. apply add_Merge_grow. Qed.

Lemma is_leaf_not_collector l d o : Forall is_leaf l -> ErrBagger d o ∉ l.
Proof.
  intros Hl Hin. rewrite Forall_forall in Hl. by apply (Hl _ Hin).
Qed.

(** *** Folding extras *)

Lemma fold_items_agree n h1 h2 eb items (w : World) :
  (forall o, o <> eb -> h1 !! o = h2 !! o) ->
  fold_items call n h1 eb items w = fold_items call n h2 eb items w.
Proof.
  intros Hag. revert w. induction items as [|i items IH]; intros w; simpl; [done|].
  destruct i as [|v|[f|]|]; try done.
  - by rewrite (flatten_agree n h1 h2), IH.
  - destruct (call f w) as [w1 r]. by rewrite (flatten_agree n h1 h2), IH.
Qed.

Lemma folded_nil eb s : folded eb [] (world s) [] s = s.
Proof.
  unfold folded. rewrite grow_nil, app_nil_r. by destruct s.
Qed.

Lemma folded_grow eb l1 l2 w fs s :
  folded eb l2 w fs (grow eb l1 s) = folded eb (l1 ++ l2) w fs s.
Proof. unfold folded. by rewrite grow_grow. Qed.

Lemma lookup_folded_eq eb l w fs s b :
  bags s !! eb = Some b ->
  bags (folded eb l w fs s) !! eb = Some (set_errs b (errs b ++ l)).
Proof. apply lookup_grow_eq. Qed.

Lemma stash_fold n fuel eb items : forall s w fs l,
  2 * n <= fuel -> is_Some (bags s !! eb) ->
  fold_items call n (bags s) eb items (world s) = Some (w, fs, l) ->
  stash call fuel eb items s = Done (tt, folded eb l w fs s).
Proof.
  unfold stash.
  induction items as [|i items IH]; intros s w fs l Hfuel Heb; simpl.
  - intros [= <- <- <-]. by rewrite folded_nil.
  - destruct i as [|v|[f|]|]; try done.
    + intros H. unfold bind at 1. unfold ret at 1. by apply IH.
    + destruct (flatten n (bags s) eb v) as [l1|] eqn:Hv; [|done].
      destruct (fold_items call n (bags s) eb items (world s))
        as [[[w' fs'] l']|] eqn:Hrest; [|done].
      intros [= <- <- <-].
      destruct (add_flatten n fuel eb v s l1) as (r & Hr & _); [done..|].
      unfold bind at 1. unfold bind at 1. rewrite Hr. unfold ret at 1.
      rewrite <- folded_grow. apply IH; [done|by apply lookup_grow_is_Some|].
      rewrite <- Hrest. apply fold_items_agree. intros o Ho.
      by apply lookup_grow_ne.
    + destruct (call f (world s)) as [w1 r] eqn:Hcall.
      destruct (flatten n (bags s) eb r) as [l1|] eqn:Hv; [|done].
      destruct (fold_items call n (bags s) eb items w1)
        as [[[w' fs'] l']|] eqn:Hrest; [|done].
      intros [= <- <- <-].
      unfold bind at 1. unfold bind at 1. unfold invoke at 1. rewrite Hcall.
      set (s1 := {| bags := bags s; world := w1; invoked := invoked s ++ [f] |}).
      destruct (add_flatten n fuel eb r s1 l1) as (r' & Hr & _); [done..|].
      unfold bind at 1. rewrite Hr. unfold ret at 1.
      assert (folded eb (l1 ++ l') w' (f :: fs') s
              = folded eb l' w' fs' (grow eb l1 s1)) as ->.
      { unfold folded. rewrite grow_grow. simpl.
        by rewrite <- app_assoc. }
      apply IH; [done|by apply lookup_grow_is_Some|].
      simpl. rewrite <- Hrest. apply fold_items_agree. intros o Ho.
      by rewrite lookup_alter_ne.
    + intros H. unfold bind at 1. unfold ret at 1. by apply IH.
Qed.

Lemma Add_fold n fuel eb err extras s b l0 w fs l1 :
  2 * n <= fuel -> bags s !! eb = Some b -> err <> ErrNil ->
  flatten n (bags s) eb err = Some l0 ->
  fold_items call n (bags s) eb extras (world s) = Some (w, fs, l1) ->
  Add call fuel (Some eb) err extras s
  = Done (if decide (length (errs b ++ l0 ++ l1) = 0) then ErrNil else as_error eb,
          folded eb (l0 ++ l1) w fs s).
Proof.
  intros Hfuel Hb Hnil Hfl Hfold.
  destruct (add_flatten n fuel eb err s l0) as (r & Hr & _); [done..|].
  assert (stash call fuel eb extras (grow eb l0 s)
          = Done (tt, folded eb (l0 ++ l1) w fs s)) as Hst.
  { rewrite <- folded_grow.
    apply (stash_fold n); [done|by apply lookup_grow_is_Some|].
    rewrite <- Hfold. apply fold_items_agree. intros o Ho.
    by apply lookup_grow_ne. }
  assert (Add call fuel (Some eb) err extras s
          = ErrorOrNil (Some eb) (folded eb (l0 ++ l1) w fs s)) as ->.
  { unfold Add. destruct err; [done| |];
      unfold bind at 1; unfold ret at 1;
      by rewrite (bind_Done _ _ _ _ _ Hr), (bind_Done _ _ _ _ _ Hst). }
  rewrite (ErrorOrNil_Done _ _ _ (lookup_folded_eq _ _ _ _ _ _ Hb)).
  simpl. by rewrite app_assoc.
Qed.

(** *** Self-insertion *)

(** C1.  Adding or merging a collector into itself does nothing, whatever
    the depth of the embedding through which it is reached: the state, and so
    the size of the collector, is unchanged.  And whatever is added or merged
    into a collector, the errors this appends are never the collector
    itself (at any depth of embedding). *)
Theorem self_insertion_is_noop (fuel eb depth : nat) s b :
  bags s !! eb = Some b ->
  add (S (S fuel)) eb (ErrBagger depth eb) s = Done (as_error eb, s)
  /\ Merge (S fuel) eb (Some eb) s = Done (as_error eb, s)
  /\ Add call (S (S fuel)) (Some eb) (ErrBagger depth eb) [] s
     = Done (if decide (length (errs b) = 0) then ErrNil else as_error eb, s)
  /\ (add (S (S fuel)) eb (ErrBagger depth eb) ;;; Size eb) s
     = Done (length (errs b), s)
  /\ (Merge (S fuel) eb (Some eb) ;;; Size eb) s = Done (length (errs b), s)
  /\ (forall err r s', add fuel eb err s = Done (r, s') ->
        exists l, bags s' !! eb = Some (set_errs b (errs b ++ l))
                  /\ forall d, ErrBagger d eb ∉ l)
  /\ (forall (oeb : option nat) r s', Merge fuel eb oeb s = Done (r, s') ->
        exists l, bags s' !! eb = Some (set_errs b (errs b ++ l))
                  /\ forall d, ErrBagger d eb ∉ l).
Proof.
  intros Hb.
  assert (Merge (S fuel) eb (Some eb) s = Done (as_error eb, s)) as HM.
  { rewrite Merge_S. by rewrite decide_False by naive_solver. }
  assert (add (S (S fuel)) eb (ErrBagger depth eb) s = Done (as_error eb, s)) as Ha.
  { by rewrite add_S. }
  assert (Size eb s = Done (length (errs b), s)) as HS.
  { unfold Size. by rewrite (bind_Done _ _ _ _ _ (load_Done _ _ _ Hb)). }
  repeat split; try done.
  - unfold Add. unfold bind at 1. unfold ret at 1.
    rewrite (bind_Done _ _ _ _ _ Ha). unfold stash, for_each.
    unfold bind at 1. unfold ret at 1. by apply ErrorOrNil_Done.
  - by rewrite (bind_Done _ _ _ _ _ Ha).
  - by rewrite (bind_Done _ _ _ _ _ HM).
  - intros err r s' (l & -> & Hl)%add_grow. exists l.
    split; [by apply lookup_grow_eq|]. intros d. by apply is_leaf_not_collector.
  - intros oeb r s' (l & -> & Hl)%Merge_grow. exists l.
    split; [by apply lookup_grow_eq|]. intros d. by apply is_leaf_not_collector.
Qed.

(** *** Sequences of [Add] *)

Lemma flatten_not_collector n h eb e l :
  AsErrorBag e = None -> e <> ErrNil -> flatten n h eb e = Some l -> l = [e].
Proof. destruct n, e; simpl; naive_solver. Qed.

Lemma flatten_all_leaves n h eb l0 l :
  Forall is_leaf l0 -> flatten_all (flatten n h eb) l0 = Some l -> l = l0.
Proof.
  intros Hl0. revert l. induction Hl0 as [|e l0 He _ IH]; intros l.
  - by intros [= <-].
  - intros (la & lb & Ha & Hb & ->)%flatten_all_Some.
    rewrite (IH _ Hb). destruct e as [|i t|d o]; try done.
    by rewrite (flatten_not_collector n h eb (ErrLeaf i t) la).
Qed.

Lemma flatten_collector n h eb d o l :
  flatten n h eb (ErrBagger d o) = Some l ->
  if decide (eb = o) then l = []
  else exists bo, h !! o = Some bo
         /\ flatten_all (flatten (pred n) h eb) (errs bo) = Some l
         /\ (Forall is_leaf (errs bo) -> l = errs bo).
Proof.
  destruct n as [|n]; simpl; [done|]. case_decide; [by intros [= <-]|].
  destruct (h !! o) as [bo|]; [|done]. intros Hl. exists bo.
  repeat split; [done|]. intros Hbo. by eapply flatten_all_leaves.
Qed.

Lemma folded_same eb l s : folded eb l (world s) [] s = grow eb l s.
Proof. unfold folded, grow. simpl. by rewrite app_nil_r. Qed.

Lemma Adds_grow n fuel eb es : forall ls s,
  2 * n <= fuel -> is_Some (bags s !! eb) ->
  Forall2 (fun e l => e <> ErrNil /\ flatten n (bags s) eb e = Some l) es ls ->
  for_each es (fun e => Add call fuel (Some eb) e []) s
  = Done (tt, grow eb (concat ls) s).
Proof.
  induction es as [|e es IH]; intros ls s Hfuel Heb Hall.
  - apply Forall2_nil_inv_l in Hall as ->. simpl. by rewrite grow_nil.
  - apply Forall2_cons_inv_l in Hall as (l & ls' & [Hnil Hfl] & Hall & ->).
    destruct Heb as [b Hb]. simpl.
    erewrite bind_Done; [|by eapply (Add_fold n)].
    rewrite app_nil_r, folded_same, <- grow_grow.
    apply IH; [done|by apply lookup_grow_is_Some; eauto|].
    eapply Forall2_impl; [done|]. intros e' l' [? ?]. split; [done|].
    by rewrite flatten_grow.
Qed.

Lemma flat_count_sum n h eb es ls :
  Forall2 (fun e l => e <> ErrNil /\ flatten n h eb e = Some l) es ls ->
  length (concat ls)
  = length (filter (fun e => ~ is_collector e) es)
    + sum_list (flat_count n h eb <$> filter is_collector es).
Proof.
  induction 1 as [|e l es ls [Hnil Hfl] _ IH]; [done|].
  simpl. rewrite length_app, IH.
  destruct (decide (is_collector e)) as [Hc|Hc].
  - rewrite filter_cons_False by naive_solver.
    rewrite (filter_cons_True is_collector) by done. csimpl.
    assert (flat_count n h eb e = length l) as ->.
    { unfold flat_count. by rewrite Hfl. }
    lia.
  - rewrite filter_cons_True by done.
    rewrite (filter_cons_False is_collector) by done. csimpl.
    assert (AsErrorBag e = None) as He.
    { unfold is_collector in Hc. by destruct (AsErrorBag e); [destruct Hc|]. }
    rewrite (flatten_not_collector _ _ _ _ _ He Hnil Hfl). simpl. lia.
Qed.

(** C2.  A sequence of [Add] calls with non-nil arguments appends, for each
    argument in turn, its flattening: an argument that is not a collector
    contributes itself, the receiver itself contributes nothing, and any other
    collector (at any depth of embedding) contributes the flattening of its
    stored errors in their order -- those stored errors themselves when they
    are plain errors.  No collector is ever stored, and [Size] is the former
    size plus the number of non-collector arguments plus the flattened counts
    of the collector arguments. *)
Theorem Add_sequence_flattens (n fuel eb : nat) s b
    (es : list error) (ls : list (list error)) :
  2 * n <= fuel ->
  bags s !! eb = Some b ->
  Forall2 (fun e l => e <> ErrNil /\ flatten n (bags s) eb e = Some l) es ls ->
  exists s',
    for_each es (fun e => Add call fuel (Some eb) e []) s = Done (tt, s')
    /\ s' = grow eb (concat ls) s
    /\ bags s' !! eb = Some (set_errs b (errs b ++ concat ls))
    /\ Forall is_leaf (concat ls)
    /\ Forall2 (fun e l =>
          match e with
          | ErrBagger d o =>
              if decide (eb = o) then l = []
              else exists bo, bags s !! o = Some bo
                     /\ flatten_all (flatten (pred n) (bags s) eb) (errs bo) = Some l
                     /\ (Forall is_leaf (errs bo) -> l = errs bo)
          | _ => l = [e]
          end) es ls
    /\ Size eb s'
       = Done (length (errs b)
               + length (filter (fun e => ~ is_collector e) es)
               + sum_list (flat_count n (bags s) eb <$> filter is_collector es),
               s').
Proof.
  intros Hfuel Hb Hall. exists (grow eb (concat ls) s).
  pose proof (lookup_grow_eq eb (concat ls) s b Hb) as Hb'.
  repeat split; try done.
  - apply (Adds_grow n); eauto.
  - apply Forall_concat. apply Forall_forall. intros l Hl.
    destruct (proj1 (list_elem_of_lookup _ _) Hl) as [i Hi].
    destruct (Forall2_lookup_r _ _ _ _ _ Hall Hi) as (e & _ & _ & Hfl).
    by eapply flatten_leaves.
  - eapply Forall2_impl; [done|]. intros e l [Hnil Hfl]. simpl in Hfl.
    destruct e as [|i t|d o]; [done| |].
    + by eapply flatten_not_collector.
    + by apply (flatten_collector n (bags s) eb d o l).
  - unfold Size. rewrite (bind_Done _ _ _ _ _ (load_Done _ _ _ Hb')).
    unfold ret. simpl. rewrite length_app, (flat_count_sum n (bags s) eb es ls Hall).
    do 2 f_equal. lia.
Qed.

(** *** Deferred closures *)

Lemma run_defers eb fs : forall s w rs,
  is_Some (bags s !! eb) ->
  run_all call fs (world s) = (w, rs) ->
  for_each (Some <$> fs) (fun df =>
    err <- call_func call df ;;
    if decide (err <> ErrNil) then append_err eb err else ret tt) s
  = Done (tt, folded eb (filter (fun r => r <> ErrNil) rs) w fs s).
Proof.
  induction fs as [|f fs IH]; intros s w rs Heb; simpl.
  - intros [= <- <-]. by rewrite folded_nil.
  - destruct (call f (world s)) as [w1 r] eqn:Hcall.
    destruct (run_all call fs w1) as [w2 rs'] eqn:Hrun. intros [= <- <-].
    unfold bind at 1. unfold bind at 1. unfold invoke. rewrite Hcall.
    set (s1 := {| bags := bags s; world := w1; invoked := invoked s ++ [f] |}).
    assert (is_Some (bags s1 !! eb)) as Heb1 by done.
    case_decide as Hr.
    + rewrite (filter_cons_True (fun r => r <> ErrNil) r) by exact Hr.
      rewrite (append_err_grow _ _ _ Heb1).
      etrans; [apply (IH (grow eb [r] s1) w2 rs');
               [by apply lookup_grow_is_Some|done]|].
      rewrite folded_grow. unfold folded. simpl. by rewrite <- (assoc_L (++)).
    + rewrite (filter_cons_False (fun r => r <> ErrNil) r) by naive_solver.
      change (ret tt s1) with (Done (tt, s1)).
      etrans; [by apply (IH s1 w2 rs')|].
      unfold folded. simpl. by rewrite <- (assoc_L (++)).
Qed.

Lemma Return_spec fuel eb items s s1 b1 fs w rs :
  stash call fuel eb items s = Done (tt, s1) ->
  bags s1 !! eb = Some b1 ->
  defers b1 = Some <$> fs ->
  run_all call fs (world s1) = (w, rs) ->
  Return call fuel eb items s
  = Done (if decide (length (errs b1 ++ filter (fun r => r <> ErrNil) rs) = 0)
          then ErrNil else as_error eb,
          folded eb (filter (fun r => r <> ErrNil) rs) w fs s1).
Proof.
  intros Hst Hb1 Hdf Hrun. unfold Return.
  rewrite (bind_Done _ _ _ _ _ Hst).
  rewrite (bind_Done _ _ _ _ _ (load_Done _ _ _ Hb1)). rewrite Hdf.
  erewrite bind_Done; [|by apply run_defers].
  by rewrite (ErrorOrNil_Done _ _ _ (lookup_folded_eq _ _ _ _ _ _ Hb1)).
Qed.

Lemma stash_nil fuel eb s : stash call fuel eb [] s = Done (tt, s).
Proof. reflexivity. Qed.

Lemma Defer_Done eb ef s b :
  bags s !! eb = Some b ->
  Defer eb ef s
  = Done (tt, {| bags := <[eb := {| errs := errs b; wrapper := wrapper b;
                                    defers := defers b ++ [ef] |}]> (bags s);
                 world := world s; invoked := invoked s |}).
Proof.
  intros Hb. unfold Defer. by rewrite (bind_Done _ _ _ _ _ (load_Done _ _ _ Hb)).
Qed.

(** C3.  [Return] first folds its extras with [stash], as [Add] does; then,
    from the state [s1] this leaves, it calls every registered closure once,
    in the order of registration, whatever the earlier ones returned, and
    appends each non-nil result to the stored errors; it returns what
    [ErrorOrNil] returns.  In particular, after [Defer(f1); Defer(f2);
    Return()] where [f1] fails with [e1] and [f2] succeeds, both have been
    called and [e1] is the one error appended. *)
Theorem Return_runs_all_defers (fuel eb : nat) (items : list item)
    s s1 b1 (fs : list nat) (w : World) (rs : list error) :
  stash call fuel eb items s = Done (tt, s1) ->
  bags s1 !! eb = Some b1 ->
  defers b1 = Some <$> fs ->
  run_all call fs (world s1) = (w, rs) ->
  (exists s2,
     Return call fuel eb items s
     = Done (if decide (length (errs b1 ++ filter (fun r => r <> ErrNil) rs) = 0)
             then ErrNil else as_error eb, s2)
     /\ Return call fuel eb items s = (ErrorOrNil (Some eb)) s2
     /\ invoked s2 = invoked s1 ++ fs
     /\ world s2 = w
     /\ length rs = length fs
     /\ bags s2 !! eb
        = Some (set_errs b1 (errs b1 ++ filter (fun r => r <> ErrNil) rs))
     /\ forall o, o <> eb -> bags s2 !! o = bags s1 !! o)
  /\ (forall (f1 f2 : nat) e1 w1 w2 b,
        bags s !! eb = Some b -> defers b = [] ->
        call f1 (world s) = (w1, e1) -> e1 <> ErrNil ->
        call f2 w1 = (w2, ErrNil) ->
        exists s',
          (Defer eb (Some f1) ;;; Defer eb (Some f2) ;;; Return call fuel eb []) s
          = Done (as_error eb, s')
          /\ invoked s' = invoked s ++ [f1; f2]
          /\ bags s' !! eb
             = Some {| errs := errs b ++ [e1]; wrapper := wrapper b;
                       defers := [Some f1; Some f2] |}).
Proof.
  intros Hst Hb1 Hdf Hrun. split.
  - pose proof (Return_spec _ _ _ _ _ _ _ _ _ Hst Hb1 Hdf Hrun) as HR.
    eexists. split; [exact HR|]. repeat split.
    + rewrite HR.
      by rewrite (ErrorOrNil_Done _ _ _ (lookup_folded_eq _ _ _ _ _ _ Hb1)).
    + clear -Hrun. revert rs w Hrun. generalize (world s1).
      induction fs as [|f fs' IH]; intros w0 rs w; simpl.
      * by intros [= <- <-].
      * destruct (call f w0) as [w1 r]. destruct (run_all call fs' w1) eqn:Hr.
        intros [= <- <-]. simpl. f_equal. by eapply IH.
    + by apply lookup_folded_eq.
    + intros o Ho. by apply lookup_grow_ne.
  - intros f1 f2 e1 w1 w2 b Hb Hnodefers Hc1 Hne Hc2.
    erewrite bind_Done; [|by apply Defer_Done].
    erewrite bind_Done; [|apply Defer_Done; simpl; apply lookup_insert_eq].
    simpl. rewrite insert_insert_eq, Hnodefers. simpl.
    erewrite Return_spec; [|apply stash_nil|simpl; apply lookup_insert_eq
                           |simpl; instantiate (1 := [f1; f2]); done
                           |simpl; rewrite Hc1, Hc2; done].
    assert (filter (fun r => r <> ErrNil) [e1; ErrNil] = [e1]) as ->.
    { rewrite filter_cons_True by done. by rewrite filter_cons_False by naive_solver. }
    simpl. rewrite decide_False by (rewrite length_app; simpl; lia).
    eexists. split; [done|]. simpl. split; [done|].
    by rewrite lookup_alter_eq, lookup_insert_eq.
Qed.


(** *** Merging twice *)

Lemma for_each_add_leaves m eb l0 : forall s,
  Forall is_leaf l0 -> is_Some (bags s !! eb) ->
  for_each l0 (fun err => add (S m) eb err) s = Done (tt, grow eb l0 s).
Proof.
  induction l0 as [|e l0 IH]; intros s Hl0 Heb; simpl.
  - by rewrite grow_nil.
  - apply Forall_cons in Hl0 as [He Hl0].
    assert (add (S m) eb e s = Done (as_error eb, grow eb [e] s)) as Ha.
    { rewrite add_S. destruct e as [|i t|d o]; try done. simpl.
      by rewrite (bind_Done _ _ _ _ _ (append_err_grow _ _ _ Heb)). }
    rewrite (bind_Done _ _ _ _ _ Ha).
    rewrite (IH _ Hl0) by by apply lookup_grow_is_Some.
    by rewrite grow_grow.
Qed.

Lemma Merge_leaves m eb o s bo :
  eb <> o -> is_Some (bags s !! eb) -> bags s !! o = Some bo ->
  Forall is_leaf (errs bo) ->
  Merge (S (S m)) eb (Some o) s = Done (as_error eb, grow eb (errs bo) s).
Proof.
  intros Hne Heb Hbo Hleaf. rewrite Merge_S. rewrite decide_True by done.
  erewrite bind_Done; [reflexivity|].
  rewrite (bind_Done _ _ _ _ _ (load_Done _ _ _ Hbo)).
  by apply for_each_add_leaves.
Qed.

Lemma Size_Done eb s b : bags s !! eb = Some b -> Size eb s = Done (length (errs b), s).
Proof.
  intros Hb. unfold Size. by rewrite (bind_Done _ _ _ _ _ (load_Done _ _ _ Hb)).
Qed.

(** C7, as amended.  For distinct collectors [A] and [B], with [B]
    non-empty and holding plain errors (no stored error of [B] is itself a
    collector), merging [B] into [A] twice appends the stored errors of [B]
    twice: nothing is deduplicated, the size of [A] grows by the size of [B]
    at each merge, and [B] is left as it was. *)
Theorem Merge_twice_duplicates (fuel A B : nat) s a b :
  A <> B ->
  bags s !! A = Some a ->
  bags s !! B = Some b ->
  errs b <> [] ->
  Forall is_leaf (errs b) ->
  exists s1 s2,
    Merge (S (S fuel)) A (Some B) s = Done (as_error A, s1)
    /\ Merge (S (S fuel)) A (Some B) s1 = Done (as_error A, s2)
    /\ bags s1 !! A = Some (set_errs a (errs a ++ errs b))
    /\ bags s2 !! A = Some (set_errs a (errs a ++ errs b ++ errs b))
    /\ Size A s = Done (length (errs a), s)
    /\ Size A s1 = Done (length (errs a) + length (errs b), s1)
    /\ Size A s2 = Done (length (errs a) + 2 * length (errs b), s2)
    /\ length (errs a) < length (errs a) + length (errs b)
       < length (errs a) + 2 * length (errs b)
    /\ bags s2 !! B = Some b.
Proof.
  intros Hne Ha Hb Hnonempty Hleaf.
  exists (grow A (errs b) s), (grow A (errs b ++ errs b) s).
  pose proof (lookup_grow_eq A (errs b) s a Ha) as Ha1.
  pose proof (lookup_grow_eq A (errs b ++ errs b) s a Ha) as Ha2.
  assert (bags (grow A (errs b) s) !! B = Some b) as Hb1.
  { by rewrite lookup_grow_ne. }
  repeat split; try done.
  - apply Merge_leaves; eauto.
  - rewrite <- grow_grow. apply Merge_leaves; eauto.
  - by apply Size_Done.
  - rewrite (Size_Done _ _ _ Ha1). simpl. by rewrite length_app.
  - rewrite (Size_Done _ _ _ Ha2). simpl. rewrite !length_app. do 2 f_equal. lia.
  - destruct (errs b); [done|simpl; lia].
  - destruct (errs b); [done|simpl; lia].
  - by rewrite lookup_grow_ne.
Qed.

(** *** Wrapping *)



Lemma Wrap_S fuel eb err :
  Wrap call (S fuel) eb err =
  match err return M error with
  | ErrNil => ret (as_error eb)
  | _ =>
      b <- load eb ;;
      match wrapper b return M error with
      | None => Add call fuel (Some eb) err []
      | Some w =>
          match AsErrorBag err return M error with
          | Some oeb =>
              (if decide (oeb <> eb)
               then Visit oeb (fun err => Wrap call fuel eb err)
               else ret tt) ;;;
              ret (as_error eb)
          | None => Add call fuel (Some eb) (WrapError w err) []
          end
      end
  end.
Proof. reflexivity. Qed.







(** *** [Add] and [New] with extras *)

Lemma ErrorOrNil_Done_inv eb s r s' :
  ErrorOrNil (Some eb) s = Done (r, s') ->
  s' = s /\ exists b, bags s !! eb = Some b
           /\ r = if decide (length (errs b) = 0) then ErrNil else as_error eb.
Proof.
  unfold ErrorOrNil. intros (b & s1 & (-> & Hb)%load_Done_inv & H)%bind_Done_inv.
  case_decide; injection H as <- <-; (split; [done|]); exists b;
    (split; [done|]); [by rewrite decide_True | by rewrite decide_False].
Qed.

(** C5, as amended.  [Add] with a nil [err] ignores its extras: it returns
    what [ErrorOrNil] returns and changes nothing, so no closure is called --
    as [New] does with a nil primary.  [Add] with a non-nil [err] inserts it
    and then folds the extras with the [stash] that [New] uses: errors are
    inserted and closures are called at once, their results inserted.  In
    every case the result is the collector when it holds an error after the
    call and nil exactly when it holds none. *)
Theorem Add_folds_extras_unless_nil (n fuel eb : nat) s b :
  2 * n <= fuel ->
  bags s !! eb = Some b ->
  (forall extras,
     Add call fuel (Some eb) ErrNil extras s
     = Done (if decide (length (errs b) = 0) then ErrNil else as_error eb, s)
     /\ Add call fuel None ErrNil extras s = Done (ErrNil, s)
     /\ New call fuel ErrNil extras s = Done (None, s))
  /\ (forall err extras l0 w fs l1,
        err <> ErrNil ->
        flatten n (bags s) eb err = Some l0 ->
        fold_items call n (bags s) eb extras (world s) = Some (w, fs, l1) ->
        Add call fuel (Some eb) err extras s
        = Done (if decide (length (errs b ++ l0 ++ l1) = 0)
                then ErrNil else as_error eb,
                folded eb (l0 ++ l1) w fs s)
        /\ stash call fuel eb extras (grow eb l0 s)
           = Done (tt, folded eb (l0 ++ l1) w fs s))
  /\ (forall d extras w fs l1,
        fold_items call n (bags s) eb extras (world s) = Some (w, fs, l1) ->
        New call fuel (ErrBagger d eb) extras s
        = Done (Some eb, folded eb l1 w fs s)
        /\ stash call fuel eb extras s = Done (tt, folded eb l1 w fs s))
  /\ (forall err extras r s',
        Add call fuel (Some eb) err extras s = Done (r, s') ->
        exists b', bags s' !! eb = Some b'
          /\ r = (if decide (length (errs b') = 0) then ErrNil else as_error eb)
          /\ (r = ErrNil <-> errs b' = [])).
Proof.
  intros Hfuel Hb. split; [|split; [|split]].
  - intros extras. split; [|done]. unfold Add. by apply ErrorOrNil_Done.
  - intros err extras l0 w fs l1 Hnil Hfl Hfold.
    split; [by apply (Add_fold n)|].
    rewrite <- folded_grow.
    apply (stash_fold n); [done|by apply lookup_grow_is_Some; eauto|].
    rewrite <- Hfold. apply fold_items_agree. intros o Ho.
    by apply lookup_grow_ne.
  - intros d extras w fs l1 Hfold.
    assert (stash call fuel eb extras s = Done (tt, folded eb l1 w fs s)) as Hst.
    { apply (stash_fold n); eauto. }
    split; [|done]. unfold New, AsErrorBag.
    by rewrite (bind_Done _ _ _ _ _ Hst).
  - intros err extras r s' HAdd.
    assert (exists s2, ErrorOrNil (Some eb) s2 = Done (r, s')) as [s2 HE].
    { unfold Add in HAdd. destruct err as [|i t|d o]; [by eauto| |].
      all: apply bind_Done_inv in HAdd as (p & s1 & [= <- <-] & HAdd).
      all: apply bind_Done_inv in HAdd as (? & ? & _ & HAdd).
      all: apply bind_Done_inv in HAdd as (? & ? & _ & HAdd); eauto. }
    apply ErrorOrNil_Done_inv in HE as (-> & b' & Hb' & ->).
    exists b'. repeat split; [done| |].
    + case_decide as Hlen; [|done]. intros _. by destruct (errs b').
    + intros ->. by rewrite decide_True.
Qed.

(** C6.  [New] with a nil primary error returns nil and leaves the state
    as it was, whatever the extras: no collector is created and no closure
    among the extras is called. *)
Theorem New_nil_is_absent (fuel : nat) (others : list item) (f : nat) s :
  New call fuel ErrNil others s = Done (None, s)
  /\ exists s', New call fuel ErrNil [ItemFunc (Some f)] s = Done (None, s')
       /\ invoked s' = invoked s /\ world s' = world s /\ bags s' = bags s.
Proof. split; [done|]. by exists s. Qed.

(** *** The text of a collector *)

(** C8.  The text of a collector is empty when it stores no error, the
    text of its one stored error when it stores exactly one, and
    ["encountered N errors"], with [N] the decimal rendering of the count,
    when it stores more than one. *)
Theorem Error_rendering (fuel eb : nat) s b :
  bags s !! eb = Some b ->
  (errs b = [] -> Error (S fuel) eb s = Done (""%string, s))
  /\ (forall e, errs b = [e] -> Error (S fuel) eb s = error_text fuel e s)
  /\ (forall i t, errs b = [ErrLeaf i t] -> Error (S fuel) eb s = Done (t, s))
  /\ (1 < length (errs b) ->
       Error (S fuel) eb s
       = Done (("encountered " ++ decimal (length (errs b)) ++ " errors")%string, s)
       /\ Nat.of_uint <$> NilEmpty.uint_of_string (decimal (length (errs b)))
          = Some (length (errs b))).
Proof.
  intros Hb.
  assert (forall e, errs b = [e] -> Error (S fuel) eb s = error_text fuel e s) as H1.
  { intros e He. simpl. rewrite (bind_Done _ _ _ _ _ (load_Done _ _ _ Hb)), He.
    simpl. by destruct e. }
  repeat split.
  - intros He. simpl. by rewrite (bind_Done _ _ _ _ _ (load_Done _ _ _ Hb)), He.
  - done.
  - intros i t He. by rewrite (H1 _ He).
  - simpl. rewrite (bind_Done _ _ _ _ _ (load_Done _ _ _ Hb)).
    rewrite decide_False by lia. by rewrite decide_True by done.
  - unfold decimal. rewrite NilEmpty.usu. simpl. by rewrite Unsigned.of_to.
Qed.

(** *** Sorting *)

Lemma map_M_texts fuel s l texts :
  Forall2 (fun e t => error_text fuel e s = Done (t, s)) l texts ->
  map_M (error_text fuel) l s = Done (texts, s).
Proof.
  induction 1 as [|e t l texts He _ IH]; [done|].
  simpl. rewrite (bind_Done _ _ _ _ _ He). by rewrite (bind_Done _ _ _ _ _ IH).
Qed.

Lemma Forall2_zip {A B} (P : A -> B -> Prop) (l : list A) (k : list B) :
  Forall2 P l k -> Forall (fun p => P p.1 p.2) (zip l k).
Proof. induction 1; simpl; by constructor. Qed.

Lemma Sorted_fst {A B} (R : A * B -> A * B -> Prop) (R' : A -> A -> Prop)
    (P : A * B -> Prop) (l : list (A * B)) :
  (forall x y, P x -> P y -> R x y -> R' x.1 y.1) ->
  Forall P l -> Sorted.Sorted R l -> Sorted.Sorted R' (l.*1).
Proof.
  intros HR HP Hs. induction Hs as [|x l _ IH Hhd]; [constructor|].
  apply Forall_cons in HP as [Hx Hl]. csimpl. constructor; [by apply IH|].
  destruct Hhd as [|y l' Hxy]; csimpl; constructor.
  apply Forall_cons in Hl as [Hy _]. by apply HR.
Qed.

Section Sorting.
Variable sort_Slice : forall A : Type, list A -> (A -> A -> bool) -> list A.

(** What [Sorted] computes, whatever [sort.Slice] does. *)
Lemma Sorted_run (fuel eb : nat) s b (texts : list string) :
  bags s !! eb = Some b ->
  Forall2 (fun e t => error_text fuel e s = Done (t, s)) (errs b) texts ->
  Sorted sort_Slice fuel eb s
  = Done ((sort_Slice _ (zip (errs b) texts) less_text).*1,
          {| bags := <[eb := set_errs b
                        ((sort_Slice _ (zip (errs b) texts) less_text).*1)]>
                       (bags s);
             world := world s; invoked := invoked s |}).
Proof.
  intros Hb Htexts. unfold Sorted.
  assert (Errors eb s = Done (errs b, s)) as HE.
  { unfold Errors. by rewrite (bind_Done _ _ _ _ _ (load_Done _ _ _ Hb)). }
  rewrite (bind_Done _ _ _ _ _ HE).
  rewrite (bind_Done _ _ _ _ _ (map_M_texts _ _ _ _ Htexts)).
  by rewrite (bind_Done _ _ _ _ _ (load_Done _ _ _ Hb)).
Qed.

(** What the documentation of [sort.Slice] promises. *)
Hypothesis sort_Slice_perm :
  forall A (l : list A) less, sort_Slice A l less ≡ₚ l.
Hypothesis sort_Slice_sorted :
  forall l : list (error * string),
    Sorted.Sorted (fun x y => less_text y x = false) (sort_Slice _ l less_text).

Lemma sorted_by_text (fuel : nat) s (l : list error) (texts : list string) :
  Forall2 (fun e t => error_text fuel e s = Done (t, s)) l texts ->
  Sorted.Sorted
    (fun x y => forall tx ty,
       error_text fuel x s = Done (tx, s) ->
       error_text fuel y s = Done (ty, s) ->
       String.ltb ty tx = false)
    ((sort_Slice _ (zip l texts) less_text).*1).
Proof.
  intros Htexts.
  eapply (Sorted_fst _ _
            (fun p : error * string => error_text fuel p.1 s = Done (p.2, s)));
    [| |apply sort_Slice_sorted].
  - intros [x tx'] [y ty'] Hx Hy Hless tx ty Hx' Hy'. simpl in *.
    rewrite Hx in Hx'. rewrite Hy in Hy'.
    injection Hx' as <-. injection Hy' as <-. done.
  - rewrite sort_Slice_perm.
    by apply (Forall2_zip (fun e t => error_text fuel e s = Done (t, s))).
Qed.

(** C4, as amended.  [Sorted] returns the stored errors reordered by the
    lexical order of their texts, and this reordering happens in the
    collector itself: after the call the collector stores the very sequence
    that was returned, no longer the insertion order.  No order is promised
    between two errors with the same text. *)
Theorem Sorted_sorts_in_place (fuel eb : nat) s b (texts : list string) :
  bags s !! eb = Some b ->
  Forall2 (fun e t => error_text fuel e s = Done (t, s)) (errs b) texts ->
  exists l s',
    Sorted sort_Slice fuel eb s = Done (l, s')
    /\ l ≡ₚ errs b
    /\ Sorted.Sorted
         (fun x y => forall tx ty,
            error_text fuel x s = Done (tx, s) ->
            error_text fuel y s = Done (ty, s) ->
            String.ltb ty tx = false) l
    /\ bags s' !! eb = Some (set_errs b l)
    /\ Errors eb s' = Done (l, s')
    /\ (forall o, o <> eb -> bags s' !! o = bags s !! o)
    /\ world s' = world s /\ invoked s' = invoked s.
Proof.
  intros Hb Htexts. do 2 eexists.
  split; [by apply Sorted_run|]. simpl. repeat split.
  - rewrite sort_Slice_perm. rewrite fst_zip; [done|].
    by rewrite (Forall2_length _ _ _ Htexts).
  - by apply sorted_by_text.
  - apply lookup_insert_eq.
  - unfold Errors, bind, load. simpl. by rewrite lookup_insert_eq.
  - intros o Ho. by rewrite lookup_insert_ne.
Qed.

End Sorting.

End Proofs.

(** ** The theorems at the sample instance *)

Lemma self_insertion_is_noop_witness :
  bags sample_state !! 1 = Some sample_A
  /\ add 2 1 (ErrBagger 3 1) sample_state = Done (as_error 1, sample_state)
  /\ Merge 1 1 (Some 1) sample_state = Done (as_error 1, sample_state).
Proof.
  assert (bags sample_state !! 1 = Some sample_A) as Hb by reflexivity.
  destruct (self_insertion_is_noop sample_call 0 1 3 sample_state sample_A Hb)
    as (Hadd & HMerge & _).
  split; [exact Hb|]. split; [exact Hadd|exact HMerge].
Defined.

Lemma Add_sequence_flattens_witness :
  exists s',
    for_each [ErrLeaf 9 "z"; ErrBagger 2 2; ErrBagger 0 1]
      (fun e => Add sample_call 4 (Some 1) e []) sample_state = Done (tt, s')
    /\ Size 1 s' = Done (2 + 1 + 3, s').
Proof.
  destruct (Add_sequence_flattens sample_call 2 4 1 sample_state sample_A
              [ErrLeaf 9 "z"; ErrBagger 2 2; ErrBagger 0 1]
              [[ErrLeaf 9 "z"]; errs sample_B; []])
    as (s' & Hrun & _ & _ & _ & _ & Hsize).
  - simpl. lia.
  - reflexivity.
  - repeat constructor; try discriminate; vm_compute; reflexivity.
  - exists s'. split; [exact Hrun|exact Hsize].
Defined.

Lemma Return_runs_all_defers_witness :
  (exists s2,
     Return sample_call 2 1 [ItemError (ErrLeaf 7 "extra")] sample_state
     = Done (as_error 1, s2)
     /\ invoked s2 = [1; 0]
     /\ bags s2 !! 1
        = Some (set_errs sample_A
                  [ErrLeaf 1 "first error"; ErrLeaf 2 "second error";
                   ErrLeaf 7 "extra"; ErrLeaf 101 "close failed"]))
  /\ (exists s',
        (Defer 1 (Some 1) ;;; Defer 1 (Some 0) ;;; Return sample_call 2 1 [])
          fresh_state
        = Done (as_error 1, s')
        /\ invoked s' = [1; 0]
        /\ bags s' !! 1
           = Some {| errs := [ErrLeaf 101 "close failed"]; wrapper := None;
                     defers := [Some 1; Some 0] |}).
Proof.
  split.
  - destruct (Return_runs_all_defers sample_call 2 1 [ItemError (ErrLeaf 7 "extra")]
                sample_state (grow 1 [ErrLeaf 7 "extra"] sample_state)
                (set_errs sample_A (errs sample_A ++ [ErrLeaf 7 "extra"]))
                [1; 0] 2 [ErrLeaf 101 "close failed"; ErrNil])
      as [(s2 & HR & _ & Hinv & _ & _ & Hb & _) _];
      [vm_compute; reflexivity | reflexivity | reflexivity | reflexivity |].
    exists s2. split; [exact HR|]. split; [exact Hinv|exact Hb].
  - destruct (Return_runs_all_defers sample_call 2 1 [] fresh_state fresh_state
                zero_ErrorBag [] 0 [])
      as [_ Hscenario]; [reflexivity..|].
    apply (Hscenario 1 0 (ErrLeaf 101 "close failed") 1 2 zero_ErrorBag);
      [reflexivity | reflexivity | reflexivity | discriminate | reflexivity].
Defined.


Lemma Merge_twice_duplicates_witness :
  exists s1 s2,
    Merge 2 1 (Some 2) sample_state = Done (as_error 1, s1)
    /\ Merge 2 1 (Some 2) s1 = Done (as_error 1, s2)
    /\ Size 1 s1 = Done (2 + 3, s1)
    /\ Size 1 s2 = Done (2 + 2 * 3, s2).
Proof.
  destruct (Merge_twice_duplicates 0 1 2 sample_state sample_A sample_B)
    as (s1 & s2 & H1 & H2 & _ & _ & _ & HS1 & HS2 & _);
    [discriminate | reflexivity | reflexivity | discriminate
     | repeat constructor |].
  exists s1, s2. repeat split; [exact H1|exact H2|exact HS1|exact HS2].
Defined.


Lemma Error_rendering_witness :
  Error 1 2 sample_state = Done ("encountered 3 errors"%string, sample_state)
  /\ Error 1 3 sample_state = Done (""%string, sample_state).
Proof.
  split.
  - destruct (Error_rendering 0 2 sample_state sample_B) as (_ & _ & _ & Hmany);
      [reflexivity|].
    destruct Hmany as [Hmany _]; [simpl; lia|]. exact Hmany.
  - destruct (Error_rendering 0 3 sample_state zero_ErrorBag) as (Hnone & _);
      [reflexivity|].
    apply Hnone. reflexivity.
Defined.

Lemma Add_folds_extras_unless_nil_witness :
  Add sample_call 4 (Some 1) ErrNil [ItemFunc (Some 1)] sample_state
  = Done (as_error 1, sample_state)
  /\ Add sample_call 4 (Some 1) (ErrLeaf 7 "x")
       [ItemFunc (Some 1); ItemNil; ItemError (ErrBagger 1 2); ItemFunc (Some 0)]
       sample_state
     = Done (as_error 1,
             folded 1 ([ErrLeaf 7 "x"]
                       ++ [ErrLeaf 101 "close failed"; ErrLeaf 3 "b";
                           ErrLeaf 4 "a"; ErrLeaf 5 "c"])
               2 [1; 0] sample_state).
Proof.
  destruct (Add_folds_extras_unless_nil sample_call 2 4 1 sample_state sample_A)
    as (Hnil & Hfold & _); [simpl; lia | reflexivity |].
  split.
  - exact (proj1 (Hnil [ItemFunc (Some 1)])).
  - apply Hfold; [discriminate | reflexivity | reflexivity].
Defined.

(** *** Insertion sort meets the contract of [sort.Slice] *)

Lemma insert_by_perm {A} (less : A -> A -> bool) x (l : list A) :
  insert_by less x l ≡ₚ x :: l.
Proof.
  induction l as [|y l IH]; simpl; [done|].
  destruct (less x y); [done|]. by rewrite IH, Permutation_swap.
Qed.

Lemma insertion_sort_perm A (l : list A) (less : A -> A -> bool) :
  insertion_sort A l less ≡ₚ l.
Proof.
  unfold insertion_sort. induction l as [|x l IH]; simpl; [done|].
  by rewrite insert_by_perm, IH.
Qed.

Lemma insert_by_sorted {A} (less : A -> A -> bool) x (l : list A) :
  (forall a b, less a b = true -> less b a = false) ->
  Sorted.Sorted (fun a b => less b a = false) l ->
  Sorted.Sorted (fun a b => less b a = false) (insert_by less x l).
Proof.
  intros Hasym Hl. induction Hl as [|y l Hl IH Hhd]; simpl.
  - by repeat constructor.
  - destruct (less x y) eqn:Hxy.
    + constructor; [by constructor|]. constructor. by apply Hasym.
    + constructor; [done|].
      destruct Hhd as [|z l' Hyz]; simpl; [by constructor|].
      destruct (less x z); by constructor.
Qed.

Lemma less_text_asym (a b : error * string) :
  less_text a b = true -> less_text b a = false.
Proof.
  unfold less_text, String.ltb. rewrite (String.compare_antisym a.2 b.2).
  by destruct (String.compare b.2 a.2).
Qed.

Lemma insertion_sort_sorted (l : list (error * string)) :
  Sorted.Sorted (fun x y => less_text y x = false) (insertion_sort _ l less_text).
Proof.
  unfold insertion_sort. induction l as [|x l IH]; simpl; [constructor|].
  apply insert_by_sorted; [apply less_text_asym|done].
Qed.

Lemma Sorted_sorts_in_place_witness :
  exists l s',
    Sorted insertion_sort 1 2 sample_state = Done (l, s')
    /\ l ≡ₚ errs sample_B
    /\ bags s' !! 2 = Some (set_errs sample_B l)
    /\ Errors 2 s' = Done (l, s').
Proof.
  destruct (Sorted_sorts_in_place insertion_sort insertion_sort_perm
              insertion_sort_sorted 1 2 sample_state sample_B
              ["b"; "a"; "c"]%string)
    as (l & s' & HS & Hperm & _ & Hb & HE & _);
    [reflexivity | by repeat constructor |].
  exists l, s'. repeat split; [exact HS|exact Hperm|exact Hb|exact HE].
Defined.

(** ** The package's tests, replayed *)

(** [TestErrorBag]: two errors are added, adding the collector to itself
    (reached through an embedding type) changes nothing, and [Wrap] stores
    the tagged error. *)
Example TestErrorBag_replay :
  value ((set_ErrorWrapper 1 (Some tagger) ;;;
          r0 <- ErrorOrNil (Some 1) ;;
          r1 <- Add sample_call 4 (Some 1) (ErrLeaf 1 "first error") [] ;;
          r2 <- Add sample_call 4 (Some 1) (ErrLeaf 2 "second error") [] ;;
          r3 <- Add sample_call 4 (Some 1) (ErrBagger 1 1) [] ;;
          l3 <- Errors 1 ;;
          r4 <- Wrap sample_call 4 1 (ErrLeaf 3 "a wrapped error") ;;
          l4 <- Errors 1 ;;
          ret (r0, r1, r2, r3, l3, r4, l4)) fresh_state)
  = Some (ErrNil, as_error 1, as_error 1, as_error 1,
          [ErrLeaf 1 "first error"; ErrLeaf 2 "second error"],
          as_error 1,
          [ErrLeaf 1 "first error"; ErrLeaf 2 "second error";
           ErrLeaf 3 "tagged: a wrapped error"]).
Proof. vm_compute. reflexivity. Qed.

(** [Example_errbagWrap]: a plain error and an already tagged one are both
    stored tagged, neither tagged twice. *)
Example Example_errbagWrap_replay :
  value ((eb <- WithWrapper (Some tagger) ;;
          Wrap sample_call 4 eb (ErrLeaf 1 "plain error") ;;;
          Wrap sample_call 4 eb (ErrLeaf 2 "tagged: custom error") ;;;
          Errors eb) fresh_state)
  = Some [ErrLeaf 1 "tagged: plain error"; ErrLeaf 2 "tagged: custom error"].
Proof. vm_compute. reflexivity. Qed.

(** [TestNew]: with a non-nil primary the extras are folded in order, nil
    items and nil closures being skipped; with a nil primary nothing is
    created and no closure is called. *)
Example TestNew_replay :
  value ((eb <- New sample_call 4 (ErrLeaf 1 "an error")
                  [ItemNil; ItemError (ErrLeaf 1 "an error"); ItemFunc None;
                   ItemFunc (Some 0); ItemFunc (Some 1)] ;;
          l <- (match eb with Some p => Errors p | None => ret [] end) ;;
          fun s => Done ((eb, l, invoked s), s)) fresh_state)
  = Some (Some 4,
          [ErrLeaf 1 "an error"; ErrLeaf 1 "an error"; ErrLeaf 101 "close failed"],
          [0; 1])
  /\ New sample_call 4 ErrNil [ItemFunc (Some 1)] fresh_state
     = Done (None, fresh_state).
Proof. split; vm_compute; reflexivity. Qed.

(** ** Where the program departs from the specification *)

(** C4 does not hold as stated: [Sorted] is not a copy.  Collector 2 holds
    errors with the texts b, a, c in that order; after [Sorted] it holds them
    in the order a, b, c -- with insertion sort, and with any other function
    that meets the contract of [sort.Slice]. *)
Lemma Sorted_reorders_the_collector :
  value (Errors 2 sample_state)
  = Some [ErrLeaf 3 "b"; ErrLeaf 4 "a"; ErrLeaf 5 "c"]
  /\ value ((Sorted insertion_sort 1 2 ;;; Errors 2) sample_state)
     = Some [ErrLeaf 4 "a"; ErrLeaf 3 "b"; ErrLeaf 5 "c"]
  /\ (forall sort_Slice : forall A : Type, list A -> (A -> A -> bool) -> list A,
        (forall A (l : list A) less, sort_Slice A l less ≡ₚ l) ->
        (forall l : list (error * string),
           Sorted.Sorted (fun x y => less_text y x = false)
             (sort_Slice _ l less_text)) ->
        forall l s', Sorted sort_Slice 1 2 sample_state = Done (l, s') ->
          bags s' !! 2 <> bags sample_state !! 2).
Proof.
  split; [reflexivity|]. split; [reflexivity|].
  intros sort_Slice Hperm Hsorted l s' HS Hsame.
  assert (Forall2 (fun e t => error_text 1 e sample_state = Done (t, sample_state))
            (errs sample_B) ["b"; "a"; "c"]%string) as Htexts
    by (by repeat constructor).
  pose proof (sorted_by_text sort_Slice Hperm Hsorted 1 sample_state _ _ Htexts)
    as Hsort.
  pose proof (Sorted_run sort_Slice 1 2 sample_state sample_B _ eq_refl Htexts)
    as Hrun.
  set (keys := (sort_Slice _ _ _).*1) in Hsort, Hrun.
  rewrite HS in Hrun. injection Hrun as Hl Hs'.
  rewrite <- Hl in Hsort.
  assert (l = errs sample_B) as ->.
  { rewrite Hs' in Hsame. simpl in Hsame. rewrite lookup_insert_eq in Hsame.
    rewrite <- Hl in Hsame. by injection Hsame. }
  apply Sorted.Sorted_inv in Hsort as [_ Hhd].
  apply Sorted.HdRel_inv in Hhd.
  by specialize (Hhd "b"%string "a"%string eq_refl eq_refl).
Qed.

(** C5 does not hold as stated.  With a nil [err], [Add] does not fold its
    extras: on a fresh collector it returns nil and changes nothing, while
    folding the same extras inserts an error and calls a closure whose result
    is inserted too.  And a nil result does not need a nil [err]: adding the
    collector itself, or another empty collector, returns nil as well. *)
Lemma Add_nil_ignores_extras :
  Add sample_call 4 (Some 1) ErrNil
    [ItemError (ErrLeaf 7 "x"); ItemFunc (Some 1)] fresh_state
  = Done (ErrNil, fresh_state)
  /\ value ((stash sample_call 4 1 [ItemError (ErrLeaf 7 "x"); ItemFunc (Some 1)] ;;;
            l <- Errors 1 ;; fun s => Done ((l, invoked s), s)) fresh_state)
     = Some ([ErrLeaf 7 "x"; ErrLeaf 101 "close failed"], [1])
  /\ Add sample_call 4 (Some 1) (ErrBagger 0 1) [] fresh_state
     = Done (ErrNil, fresh_state)
  /\ Add sample_call 4 (Some 1) (ErrBagger 0 2) [] fresh_state
     = Done (ErrNil, fresh_state).
Proof. repeat split; vm_compute; reflexivity. Qed.

(** C7 does not hold for every non-empty [B].  Collector 2 registers a
    closure that returns collector 3 and runs [Return], which stores that
    collector as it is; collector 2 then has size 1, and merging it into
    collector 1, once or twice, leaves the size of collector 1 at 0, because
    merging flattens the stored collector, which is empty. *)
Lemma Merge_flattens_stored_collectors :
  value ((Defer 2 (Some 9) ;;;
          Return sample_call 4 2 [] ;;;
          a0 <- Size 1 ;;
          b0 <- Size 2 ;;
          Merge 4 1 (Some 2) ;;;
          a1 <- Size 1 ;;
          Merge 4 1 (Some 2) ;;;
          a2 <- Size 1 ;;
          b2 <- Errors 2 ;;
          ret (a0, b0, a1, a2, b2)) fresh_state)
  = Some (0, 1, 0, 0, [ErrBagger 0 3]).
Proof. vm_compute. reflexivity. Qed.

(** ** Further properties of the program *)

Section MoreHelpers.
Context {World : Type}.
Implicit Types (s : @State World) (eb o : nat) (err e : error)
  (l : list error) (b : ErrorBag) (h : gmap nat ErrorBag).

Lemma load_inv eb s b s' :
  load eb s = Done (b, s') -> s' = s /\ bags s !! eb = Some b.
Proof.
  unfold load. destruct (bags s !! eb) as [b0|]; [|done].
  intros [= <- <-]. by split.
Qed.

Lemma ErrorOrNil_inv eb s r s' :
  ErrorOrNil (Some eb) s = Done (r, s') ->
  s' = s /\ exists b, bags s !! eb = Some b
           /\ r = if decide (length (errs b) = 0) then ErrNil else as_error eb.
Proof.
  unfold ErrorOrNil. intros (b & s1 & (-> & Hb)%load_inv & H)%bind_Done_inv.
  split; [by case_decide; injection H|]. exists b. split; [done|].
  case_decide; by injection H.
Qed.

Lemma for_each_app {A B} (body : A -> M B) (l1 l2 : list A) s :
  for_each (l1 ++ l2) body s = (for_each l1 body ;;; for_each l2 body) s.
Proof.
  revert s. induction l1 as [|x l1 IH]; intros s; [reflexivity|].
  simpl. unfold bind. destruct (body x s) as [[r s1]| |]; [|done..].
  apply IH.
Qed.

Lemma folded_folded eb l1 l2 (w1 w2 : World) fs1 fs2 s :
  folded eb l2 w2 fs2 (folded eb l1 w1 fs1 s)
  = folded eb (l1 ++ l2) w2 (fs1 ++ fs2) s.
Proof.
  unfold folded, grow. simpl. f_equal.
  - rewrite alter_alter_eq. apply alter_ext. intros b _.
    unfold set_errs; simpl. by rewrite (assoc_L (++)).
  - by rewrite (assoc_L (++)).
Qed.

Lemma grow_as_folded eb l s : grow eb l s = folded eb l (world s) [] s.
Proof. by rewrite folded_same. Qed.

Lemma add_leaf fuel eb i t s :
  is_Some (bags s !! eb) ->
  add (S fuel) eb (ErrLeaf i t) s = Done (as_error eb, grow eb [ErrLeaf i t] s).
Proof.
  intros Heb. rewrite add_S. simpl.
  by rewrite (bind_Done _ _ _ _ _ (append_err_grow _ _ _ Heb)).
Qed.

Lemma flat_heap_grow eb l s :
  Forall is_leaf l -> flat_heap (bags s) -> flat_heap (bags (grow eb l s)).
Proof.
  intros Hl Hflat o b. destruct (decide (o = eb)) as [->|Hne].
  - unfold grow; simpl. rewrite lookup_alter_eq.
    destruct (bags s !! eb) as [b0|] eqn:Hb0; [|done]. intros [= <-]. simpl.
    apply Forall_app. split; [by eapply Hflat|done].
  - rewrite lookup_grow_ne by done. apply Hflat.
Qed.

Lemma for_each_never_Done {A B} (body : A -> M B) (x : A) (xs : list A) :
  x ∈ xs -> (forall s y, body x s <> Done y) ->
  forall s y, for_each xs body s <> Done y.
Proof.
  intros Hin Hx. induction xs as [|x0 xs IH]; intros s y.
  - by apply not_elem_of_nil in Hin.
  - simpl. intros (r & s1 & H1 & H2)%bind_Done_inv.
    apply elem_of_cons in Hin as [->|Hin]; [by eapply Hx|by eapply IH].
Qed.

Lemma for_each_never_Done_inv {A B} (body : A -> M B) (I : State -> Prop)
    (x : A) (xs : list A) :
  x ∈ xs ->
  (forall y s r s', I s -> body y s = Done (r, s') -> I s') ->
  (forall s r, I s -> body x s <> Done r) ->
  forall s r, I s -> for_each xs body s <> Done r.
Proof.
  intros Hin Hpres Hx. induction xs as [|x0 xs IH]; intros s r HI.
  - by apply not_elem_of_nil in Hin.
  - simpl. intros (r0 & s1 & H1 & H2)%bind_Done_inv.
    apply elem_of_cons in Hin as [->|Hin]; [by eapply Hx|].
    eapply IH; [done| |exact H2]. by eapply Hpres.
Qed.

Lemma for_each_sim {A B C} (body1 : A -> M B) (body2 : A -> M C) :
  (forall x s r s', body1 x s = Done (r, s') -> exists r', body2 x s = Done (r', s')) ->
  forall xs s u s', for_each xs body1 s = Done (u, s') ->
    for_each xs body2 s = Done (tt, s').
Proof.
  intros Hsim. induction xs as [|x xs IH]; intros s u s'; simpl.
  - by intros [= _ <-].
  - intros (r & s1 & H1 & H2)%bind_Done_inv.
    destruct (Hsim _ _ _ _ H1) as [r' Hr']. rewrite (bind_Done _ _ _ _ _ Hr').
    by eapply IH.
Qed.

(** *** The read-side views, merging, and the first revision *)

(** X1.  The read-side views agree and change nothing: [HasErrors] is true
    exactly when [Size] is positive, exactly when [ErrorOrNil] is not nil;
    the value [ErrorOrNil] returns is the collector itself; both revisions of
    [ErrorOrNil] return the same; [AsError] returns the collector even when
    it is empty; and [ErrorOrNil] on a nil receiver is nil. *)
Theorem read_views_agree eb s b :
  bags s !! eb = Some b ->
  exists (h : bool) (r : error),
    HasErrors eb s = Done (h, s)
    /\ Size eb s = Done (length (errs b), s)
    /\ Errors eb s = Done (errs b, s)
    /\ ErrorOrNil (Some eb) s = Done (r, s)
    /\ v1.ErrorOrNil eb s = Done (r, s)
    /\ (h = true <-> 0 < length (errs b))
    /\ (r <> ErrNil <-> 0 < length (errs b))
    /\ (r <> ErrNil -> AsErrorBag r = Some eb)
    /\ (exists r', AsError eb s = Done (r', s)
          /\ r' <> ErrNil /\ AsErrorBag r' = Some eb)
    /\ ErrorOrNil None s = Done (ErrNil, s).
Proof.
  intros Hb.
  exists (bool_decide (0 < length (errs b))),
    (if decide (length (errs b) = 0) then ErrNil else as_error eb).
  split_and!.
  - unfold HasErrors. by rewrite (bind_Done _ _ _ _ _ (load_Done _ _ _ Hb)).
  - by apply Size_Done.
  - unfold Errors. by rewrite (bind_Done _ _ _ _ _ (load_Done _ _ _ Hb)).
  - by apply ErrorOrNil_Done.
  - unfold v1.ErrorOrNil. rewrite (bind_Done _ _ _ _ _ (load_Done _ _ _ Hb)).
    repeat case_decide; (done || lia).
  - apply bool_decide_eq_true.
  - case_decide; split; (done || lia).
  - by case_decide.
  - by exists (as_error eb).
  - done.
Qed.


Lemma Error_of_self_diverges eb d s b :
  bags s !! eb = Some b -> errs b = [ErrBagger d eb] ->
  forall fuel, Error fuel eb s = OutOfFuel.
Proof.
  intros Hb He. induction fuel as [|fuel IH]; [done|].
  simpl. rewrite (bind_Done _ _ _ _ _ (load_Done _ _ _ Hb)), He. simpl. exact IH.
Qed.

Lemma Merge_self_inv fuel eb s r s' :
  Merge fuel eb (Some eb) s = Done (r, s') -> r = as_error eb /\ s' = s.
Proof.
  destruct fuel as [|fuel]; [done|]. rewrite Merge_S.
  rewrite decide_False by naive_solver. by intros [= <- <-].
Qed.

Lemma Merge_other_inv fuel eb o s r s' :
  eb <> o -> Merge fuel eb (Some o) s = Done (r, s') ->
  exists b, bags s !! o = Some b.
Proof.
  intros Hne. destruct fuel as [|fuel]; [done|]. rewrite Merge_S.
  rewrite decide_True by done. intros (u & s1 & H1 & _)%bind_Done_inv.
  apply bind_Done_inv in H1 as (b & ? & (-> & Hb)%load_inv & _). eauto.
Qed.

Lemma v1_Add_S fuel eb err :
  @v1.Add World (S fuel) eb err =
  match err return M error with
  | ErrNil => ret (as_error eb)
  | _ => match AsErrorBag err return M error with
         | Some oeb =>
             if decide (oeb = eb) then ret (as_error eb)
             else l <- Errors oeb ;; v1.Update fuel eb l
         | None => append_err eb err ;;; ret (as_error eb)
         end
  end.
Proof. reflexivity. Qed.

Lemma v1_Update_S fuel eb (l : list error) :
  @v1.Update World (S fuel) eb l =
  (for_each l (fun err => v1.Add fuel eb err) ;;; ret (as_error eb)).
Proof. reflexivity. Qed.

Lemma v1_simulates fuel :
  (forall eb err s r s', add fuel eb err s = Done (r, s') ->
     v1.Add fuel eb err s = Done (as_error eb, s')
     /\ (err <> ErrNil -> r = as_error eb))
  /\ (forall eb o s r s' b, eb <> o -> bags s !! o = Some b ->
        Merge fuel eb (Some o) s = Done (r, s') ->
        v1.Update fuel eb (errs b) s = Done (as_error eb, s')
        /\ r = as_error eb).
Proof.
  induction fuel as [|fuel [IHadd IHMerge]]; [split; intros; discriminate|].
  split.
  - intros eb err s r s'. rewrite add_S, v1_Add_S. destruct err as [|i t|d o].
    + intros [-> _]%ErrorOrNil_inv. by split.
    + unfold AsErrorBag. intros H. split; [|intros _].
      * apply bind_Done_inv in H as ([] & s1 & H1 & [= _ <-]).
        by rewrite (bind_Done _ _ _ _ _ H1).
      * by apply bind_Done_inv in H as ([] & s1 & H1 & [= <- _]).
    + unfold AsErrorBag. intros HM. case_decide as Hd.
      * subst o. by apply Merge_self_inv in HM as [-> ->].
      * assert (exists b, bags s !! o = Some b) as [b Hb]
          by (by eapply Merge_other_inv).
        destruct (IHMerge eb o s r s' b ltac:(done) Hb HM) as [HU ->].
        split; [|done]. unfold Errors.
        unfold bind at 1. unfold bind at 1.
        by rewrite (load_Done _ _ _ Hb).
  - intros eb o s r s' b Hne Hb. rewrite Merge_S, v1_Update_S.
    rewrite decide_True by done.
    intros ([] & s1 & H1 & [= <- <-])%bind_Done_inv.
    apply bind_Done_inv in H1 as (b0 & ? & (-> & Hb0)%load_inv & H1).
    rewrite Hb in Hb0. injection Hb0 as <-. split; [|done].
    erewrite bind_Done; [reflexivity|].
    revert H1. apply for_each_sim. intros x s0 r0 s0' Hx.
    destruct (IHadd _ _ _ _ _ Hx) as [Hv _]. eauto.
Qed.

(** X15.  The first revision's [Add] inserts what the second revision's
    [add] inserts: both append the flattening of the error to the receiver,
    and whenever [add] returns, the first [Add] returns the same state, always
    with the receiver as its value.  The same holds for the two [Update]. *)
Theorem first_revision_Add_agrees (n fuel eb : nat) err s b (l : list error) :
  bags s !! eb = Some b ->
  2 * n <= fuel ->
  flatten n (bags s) eb err = Some l ->
  v1.Add fuel eb err s = Done (as_error eb, grow eb l s)
  /\ (exists r, add fuel eb err s = Done (r, grow eb l s))
  /\ (forall es ls, flatten_all (flatten n (bags s) eb) es = Some ls ->
        v1.Update (S fuel) eb es s = Done (as_error eb, grow eb ls s)
        /\ Update fuel eb es s = Done (as_error eb, grow eb ls s))
  /\ (forall fuel' err' s0 r s', add fuel' eb err' s0 = Done (r, s') ->
        v1.Add fuel' eb err' s0 = Done (as_error eb, s')).
Proof.
  intros Hb Hfuel Hfl.
  destruct (add_flatten n fuel eb err s l) as (r & Hr & _); [done|eauto|done|].
  split_and!.
  - by apply (v1_simulates fuel) in Hr as [Hv _].
  - eauto.
  - intros es ls Hes.
    assert (for_each es (fun e => add fuel eb e) s = Done (tt, grow eb ls s)) as Hfe.
    { apply (for_each_add_flatten fuel n); [|eauto|done].
      intros e0 s0 l0 Heb H0.
      destruct (add_flatten n fuel eb e0 s0 l0) as (r0 & Hr0 & _); eauto. }
    split.
    + rewrite v1_Update_S. erewrite bind_Done; [reflexivity|].
      revert Hfe. apply for_each_sim. intros x s0 r0 s0' Hx.
      apply (v1_simulates fuel) in Hx as [Hv _]. eauto.
    + unfold Update. by rewrite (bind_Done _ _ _ _ _ Hfe).
  - intros fuel' err' s0 r0 s' H. by apply (v1_simulates fuel') in H as [Hv _].
Qed.

Lemma v1_Wrap_S fuel eb err :
  @v1.Wrap World (S fuel) eb err =
  match err return M error with
  | ErrNil => ret (as_error eb)
  | _ =>
      b <- load eb ;;
      match wrapper b return M error with
      | None => v1.Add fuel eb err
      | Some w =>
          match AsErrorBag err return M error with
          | Some oeb =>
              (if decide (oeb <> eb)
               then Visit oeb (fun err => v1.Wrap fuel eb err)
               else ret tt) ;;;
              ret (as_error eb)
          | None => v1.Add fuel eb (WrapError w err)
          end
      end
  end.
Proof. reflexivity. Qed.

Lemma v1_Add_more_fuel fuel :
  (forall eb err s x, @v1.Add World fuel eb err s = Done x ->
     v1.Add (S fuel) eb err s = Done x)
  /\ (forall eb l s x, @v1.Update World fuel eb l s = Done x ->
        v1.Update (S fuel) eb l s = Done x).
Proof.
  induction fuel as [|fuel [IHA IHU]]; [split; intros; discriminate|]. split.
  - intros eb err s x. rewrite (v1_Add_S (S fuel)), (v1_Add_S fuel).
    destruct err as [|i t|d o]; [done|done|]. unfold AsErrorBag.
    case_decide; [done|]. unfold bind.
    destruct (Errors o s) as [[l s1]| |]; [|done..]. apply IHU.
  - intros eb l s [r s'].
    rewrite (v1_Update_S (S fuel)), (v1_Update_S fuel).
    intros (u & s1 & H1 & [= <- <-])%bind_Done_inv.
    erewrite bind_Done; [reflexivity|]. destruct u.
    revert H1. apply for_each_sim. intros y s0 r0 s0' Hy.
    apply IHA in Hy. eauto.
Qed.

End MoreHelpers.

(** ** Further properties that involve closures *)

Section MoreProofs.
Context {World : Type} (call : nat -> World -> World * error).
Implicit Types (s : @State World) (eb o : nat) (err e : error)
  (l : list error) (b : ErrorBag) (h : gmap nat ErrorBag).

(** *** Helpers *)





Lemma add_appends fuel eb err s r s' :
  add fuel eb err s = Done (r, s') ->
  exists l, s' = grow eb l s /\ Forall is_leaf l.
Proof. apply (add_grow call). Qed.

Lemma Merge_appends fuel eb (oeb : option nat) s r s' :
  Merge fuel eb oeb s = Done (r, s') ->
  exists l, s' = grow eb l s /\ Forall is_leaf l.
Proof. apply (Merge_grow call). Qed.














(** *** Allocation: [New] and [Add] on a nil receiver *)

Lemma fresh_not_allocated s : bags s !! fresh (dom (bags s)) = None.
Proof. apply not_elem_of_dom, is_fresh. Qed.

Lemma alloc_Done s :
  alloc s = Done (fresh (dom (bags s)),
                  {| bags := <[fresh (dom (bags s)) := zero_ErrorBag]> (bags s);
                     world := world s; invoked := invoked s |}).
Proof. reflexivity. Qed.

(** X2.  [New] with a primary error that is not a collector makes a new
    collector at an address no collector had: it holds the primary error
    followed by what the extras contribute, has no wrapper and no registered
    closure, and every existing collector is left as it was. *)
Theorem New_allocates_fresh (n fuel : nat) err (others : list item) s
    (w : World) (fs : list nat) (l1 : list error) :
  AsErrorBag err = None -> err <> ErrNil ->
  2 * n <= fuel -> 0 < fuel ->
  fold_items call n (bags s) (fresh (dom (bags s))) others (world s)
  = Some (w, fs, l1) ->
  exists p s',
    New call fuel err others s = Done (Some p, s')
    /\ bags s !! p = None
    /\ bags s' !! p = Some {| errs := err :: l1; wrapper := None; defers := [] |}
    /\ (forall o, o <> p -> bags s' !! o = bags s !! o)
    /\ world s' = w
    /\ invoked s' = invoked s ++ fs.
Proof.
  intros Hleaf Hnil Hfuel Hpos Hfold.
  set (p := fresh (dom (bags s))) in *.
  set (s0 := {| bags := <[p := zero_ErrorBag]> (bags s);
                world := world s; invoked := invoked s |}).
  assert (bags s0 !! p = Some zero_ErrorBag) as Hp by apply lookup_insert_eq.
  assert (add fuel p err s0 = Done (as_error p, grow p [err] s0)) as Hadd.
  { destruct fuel as [|fuel]; [lia|]. destruct err as [|i t|d o]; try done.
    apply add_leaf. eauto. }
  assert (stash call fuel p others (grow p [err] s0)
          = Done (tt, folded p ([err] ++ l1) w fs s0)) as Hst.
  { rewrite <- folded_grow.
    apply (stash_fold call n); [done|apply lookup_grow_is_Some; eauto|].
    rewrite <- Hfold. apply fold_items_agree. intros o Ho.
    rewrite lookup_grow_ne by done. by apply lookup_insert_ne. }
  exists p, (folded p ([err] ++ l1) w fs s0). split_and!.
  - destruct err as [|i t|d o]; try done. unfold New, AsErrorBag.
    all: rewrite (bind_Done _ _ _ _ _ (alloc_Done s)).
    all: fold p; fold s0.
    all: by rewrite (bind_Done _ _ _ _ _ Hadd), (bind_Done _ _ _ _ _ Hst).
  - apply fresh_not_allocated.
  - by rewrite (lookup_folded_eq _ _ _ _ _ _ Hp).
  - intros o Ho. unfold folded. simpl. rewrite lookup_alter_ne by done.
    by apply lookup_insert_ne.
  - done.
  - done.
Qed.

(** X3.  [Add] on a nil receiver does nothing for a nil error and, for a
    non-nil one, makes a new collector that holds the flattening of the error
    followed by what the extras contribute; it returns that collector, or nil
    when nothing was contributed.  Existing collectors, also one that was
    added, are left as they were. *)
Theorem Add_on_nil_receiver_allocates (n fuel : nat) err (extras : list item) s
    (l0 : list error) (w : World) (fs : list nat) (l1 : list error) :
  err <> ErrNil ->
  2 * n <= fuel ->
  flatten n (bags s) (fresh (dom (bags s))) err = Some l0 ->
  fold_items call n (bags s) (fresh (dom (bags s))) extras (world s)
  = Some (w, fs, l1) ->
  Add call fuel None ErrNil extras s = Done (ErrNil, s)
  /\ exists p s',
       Add call fuel None err extras s
       = Done (if decide (length (l0 ++ l1) = 0) then ErrNil else as_error p, s')
       /\ bags s !! p = None
       /\ bags s' !! p = Some {| errs := l0 ++ l1; wrapper := None; defers := [] |}
       /\ (forall o, o <> p -> bags s' !! o = bags s !! o)
       /\ world s' = w
       /\ invoked s' = invoked s ++ fs.
Proof.
  intros Hnil Hfuel Hfl Hfold. split; [done|].
  set (p := fresh (dom (bags s))) in *.
  set (s0 := {| bags := <[p := zero_ErrorBag]> (bags s);
                world := world s; invoked := invoked s |}).
  assert (bags s0 !! p = Some zero_ErrorBag) as Hp by apply lookup_insert_eq.
  assert (forall o, o <> p -> bags s0 !! o = bags s !! o) as Hag.
  { intros o Ho. by apply lookup_insert_ne. }
  assert (Add call fuel None err extras s = Add call fuel (Some p) err extras s0)
    as ->.
  { unfold Add. destruct err as [|i t|d o]; [done| |].
    all: by rewrite (bind_Done _ _ _ _ _ (alloc_Done s)). }
  exists p, (folded p (l0 ++ l1) w fs s0). split_and!.
  - rewrite (Add_fold call n fuel p err extras s0 zero_ErrorBag l0 w fs l1);
      try done.
    + by rewrite (flatten_agree n _ (bags s)).
    + by rewrite (fold_items_agree call n _ (bags s)).
  - apply fresh_not_allocated.
  - by rewrite (lookup_folded_eq _ _ _ _ _ _ Hp).
  - intros o Ho. unfold folded. simpl. rewrite lookup_alter_ne by done.
    by apply Hag.
  - done.
  - done.
Qed.

(** *** What [Add] and [Wrap] can change *)

Lemma invoke_folded eb f s r s' :
  invoke call f s = Done (r, s') ->
  exists w, s' = folded eb [] w [f] s.
Proof.
  unfold invoke. destruct (call f (world s)) as [w r0]. intros [= <- <-].
  exists w. unfold folded. by rewrite grow_nil.
Qed.

Lemma stash_reaches fuel eb items : forall s u s',
  stash call fuel eb items s = Done (u, s') ->
  exists l w fs, s' = folded eb l w fs s /\ Forall is_leaf l.
Proof.
  unfold stash. induction items as [|i items IH]; intros s u s'; simpl.
  - intros [= _ <-]. exists [], (world s), []. by rewrite folded_nil.
  - intros (x & s1 & H1 & H2)%bind_Done_inv.
    apply IH in H2 as (l2 & w2 & fs2 & -> & Hl2).
    assert (exists l1 w1 fs1, s1 = folded eb l1 w1 fs1 s /\ Forall is_leaf l1)
      as (l1 & w1 & fs1 & -> & Hl1).
    { destruct i as [|v|[f|]|]; try done.
      - injection H1 as _ <-. exists [], (world s), []. by rewrite folded_nil.
      - apply bind_Done_inv in H1 as (r & s2 & Ha & [= _ <-]).
        apply add_appends in Ha as (l1 & -> & Hl1).
        exists l1, (world s), []. by rewrite folded_same.
      - apply bind_Done_inv in H1 as (r & s2 & Hi & H1).
        apply bind_Done_inv in H1 as (r' & s3 & Ha & [= _ <-]).
        apply (invoke_folded eb) in Hi as (w1 & ->).
        apply add_appends in Ha as (l1 & -> & Hl1).
        exists l1, w1, [f]. split; [|done].
        by rewrite grow_as_folded, folded_folded.
      - injection H1 as _ <-. exists [], (world s), []. by rewrite folded_nil. }
    exists (l1 ++ l2), w2, (fs1 ++ fs2). rewrite folded_folded.
    split; [done|]. by apply Forall_app.
Qed.

Lemma Add_reaches fuel eb err extras s r s' :
  Add call fuel (Some eb) err extras s = Done (r, s') ->
  exists l w fs, s' = folded eb l w fs s /\ Forall is_leaf l.
Proof.
  unfold Add. intros H.
  assert ((add fuel eb err ;;; stash call fuel eb extras ;;;
           ErrorOrNil (Some eb)) s = Done (r, s') \/ s' = s) as [H'| ->].
  { destruct err as [|i t|d o].
    - right. by apply ErrorOrNil_inv in H as [-> _].
    - left. exact H.
    - left. exact H. }
  - apply bind_Done_inv in H' as (r1 & s1 & Ha & H').
    apply bind_Done_inv in H' as (u & s2 & Hs & HE).
    apply ErrorOrNil_inv in HE as [-> _].
    apply add_appends in Ha as (l1 & -> & Hl1).
    apply stash_reaches in Hs as (l2 & w & fs & -> & Hl2).
    exists (l1 ++ l2), w, fs. rewrite folded_grow. split; [done|].
    by apply Forall_app.
  - exists [], (world s), []. by rewrite folded_nil.
Qed.

(** X4.  Whenever [Add] returns, all it did to the collectors is append
    plain errors to the receiver: the errors stored before keep their places,
    the wrapper and the registered closures are the same, no other collector
    changed, and a heap in which no collector stores a collector stays so. *)
Theorem Add_only_appends_plain_errors (fuel eb : nat) err (extras : list item)
    s b r s' :
  bags s !! eb = Some b ->
  Add call fuel (Some eb) err extras s = Done (r, s') ->
  exists l b' fs,
    bags s' !! eb = Some b'
    /\ errs b' = errs b ++ l
    /\ Forall is_leaf l
    /\ wrapper b' = wrapper b
    /\ defers b' = defers b
    /\ (forall o, o <> eb -> bags s' !! o = bags s !! o)
    /\ invoked s' = invoked s ++ fs
    /\ (flat_heap (bags s) -> flat_heap (bags s')).
Proof.
  intros Hb (l & w & fs & -> & Hl)%Add_reaches.
  exists l, (set_errs b (errs b ++ l)), fs. split_and!; try done.
  - by apply lookup_folded_eq.
  - intros o Ho. by apply lookup_grow_ne.
  - by apply flat_heap_grow.
Qed.

Lemma Wrap_grow fuel : forall eb err s r s',
  Wrap call fuel eb err s = Done (r, s') ->
  exists l, s' = grow eb l s /\ Forall is_leaf l.
Proof.
  induction fuel as [|fuel IH]; intros eb err s r s'; [done|].
  rewrite Wrap_S.
  assert (forall e' x s1, Add call fuel (Some eb) e' [] s = Done (x, s1) ->
            exists l, s1 = grow eb l s /\ Forall is_leaf l) as HAdd.
  { intros e' x s1 HA.
    assert (e' = ErrNil /\ s1 = s
            \/ (add fuel eb e' ;;; ErrorOrNil (Some eb)) s = Done (x, s1))
      as [[-> ->]|HA'].
    { destruct e' as [|i t|d o]; [left|right; exact HA|right; exact HA].
      by apply ErrorOrNil_inv in HA as [-> _]. }
    - exists []. by rewrite grow_nil.
    - apply bind_Done_inv in HA' as (r1 & s2 & Ha & HE).
      apply ErrorOrNil_inv in HE as [-> _]. by eapply add_appends. }
  assert (forall k : ErrorBag -> M error,
            (forall b, bags s !! eb = Some b -> k b s = Done (r, s') ->
               exists l, s' = grow eb l s /\ Forall is_leaf l) ->
            (b <- load eb ;; k b) s = Done (r, s') ->
            exists l, s' = grow eb l s /\ Forall is_leaf l) as Hload.
  { intros k Hk (b & s1 & (-> & Hb)%load_inv & H)%bind_Done_inv. eauto. }
  destruct err as [|i t|d o].
  - intros [= _ <-]. exists []. by rewrite grow_nil.
  - apply Hload. intros b Hb. destruct (wrapper b) as [w|]; apply HAdd.
  - apply Hload. intros b Hb. destruct (wrapper b) as [w|]; [|apply HAdd].
    unfold AsErrorBag.
    intros ([] & s1 & H1 & [= _ <-])%bind_Done_inv. case_decide.
    + unfold Visit in H1.
      apply bind_Done_inv in H1 as (bo & ? & (-> & Hbo)%load_inv & H1).
      revert H1. apply for_each_grows. intros x. apply IH.
    + injection H1 as <-. exists []. by rewrite grow_nil.
Qed.

(** X5.  Whenever [Wrap] returns, all it did is append plain errors to
    the receiver: no closure was called, the wrapper and the registered
    closures are the same, no other collector changed, and a heap in which no
    collector stores a collector stays so. *)
Theorem Wrap_only_appends_plain_errors (fuel eb : nat) err s b r s' :
  bags s !! eb = Some b ->
  Wrap call fuel eb err s = Done (r, s') ->
  exists l b',
    bags s' !! eb = Some b'
    /\ errs b' = errs b ++ l
    /\ Forall is_leaf l
    /\ wrapper b' = wrapper b
    /\ defers b' = defers b
    /\ (forall o, o <> eb -> bags s' !! o = bags s !! o)
    /\ invoked s' = invoked s
    /\ world s' = world s
    /\ (flat_heap (bags s) -> flat_heap (bags s')).
Proof.
  intros Hb (l & -> & Hl)%Wrap_grow.
  exists l, (set_errs b (errs b ++ l)). split_and!; try done.
  - by apply lookup_grow_eq.
  - intros o Ho. by apply lookup_grow_ne.
  - by apply flat_heap_grow.
Qed.

(** *** Programming errors: a bad extra, a nil deferred function *)



(** X6.  An extra that is neither an error nor a function makes [stash]
    panic, and with it [Return], [New] and [Add] with a non-nil error, once the
    extras before it are folded; no amount of fuel lets [stash] return.  With
    a nil error [Add] and [New] never look at their extras and so return. *)
Theorem bad_extra_panics (n fuel eb : nat) err (pre post : list item) s b
    (w : World) (fs : list nat) (l0 l1 : list error) :
  bags s !! eb = Some b ->
  2 * n <= fuel ->
  fold_items call n (bags s) eb pre (world s) = Some (w, fs, l1) ->
  (forall fuel' s' x,
     stash call fuel' eb (pre ++ ItemOther :: post) s' <> Done x)
  /\ stash call fuel eb (pre ++ ItemOther :: post) s = Panic
  /\ Return call fuel eb (pre ++ ItemOther :: post) s = Panic
  /\ New call fuel (ErrBagger 0 eb) (pre ++ ItemOther :: post) s = Panic
  /\ (err <> ErrNil ->
      flatten n (bags s) eb err = Some l0 ->
      Add call fuel (Some eb) err (pre ++ ItemOther :: post) s = Panic)
  /\ Add call fuel (Some eb) ErrNil (pre ++ ItemOther :: post) s
     = Done (if decide (length (errs b) = 0) then ErrNil else as_error eb, s)
  /\ New call fuel ErrNil (pre ++ ItemOther :: post) s = Done (None, s).
Proof.
  intros Hb Hfuel Hfold.
  assert (forall s0 w0 fs0 l, is_Some (bags s0 !! eb) ->
            fold_items call n (bags s0) eb pre (world s0) = Some (w0, fs0, l) ->
            stash call fuel eb (pre ++ ItemOther :: post) s0 = Panic) as Hpanic.
  { intros s0 w0 fs0 l Heb H0. unfold stash. rewrite for_each_app.
    pose proof (stash_fold call n fuel eb pre s0 w0 fs0 l Hfuel Heb H0) as Hpre.
    unfold stash in Hpre. by rewrite (bind_Done _ _ _ _ _ Hpre). }
  assert (stash call fuel eb (pre ++ ItemOther :: post) s = Panic) as HP
    by (eapply Hpanic; eauto).
  split_and!; try done.
  - intros fuel' s' x. unfold stash.
    apply (for_each_never_Done _ ItemOther); [|done].
    apply elem_of_app. right. apply elem_of_cons. by left.
  - unfold Return, bind. by rewrite HP.
  - unfold New, AsErrorBag, bind. by rewrite HP.
  - intros Hnil Hfl.
    destruct (add_flatten n fuel eb err s l0) as (r & Hr & _); [done|eauto|done|].
    assert (Add call fuel (Some eb) err (pre ++ ItemOther :: post) s
            = (add fuel eb err ;;; stash call fuel eb (pre ++ ItemOther :: post) ;;;
               ErrorOrNil (Some eb)) s) as ->
      by (by destruct err).
    rewrite (bind_Done _ _ _ _ _ Hr). unfold bind.
    erewrite Hpanic; [done|apply lookup_grow_is_Some; eauto|].
    simpl. rewrite <- Hfold. apply fold_items_agree. intros o Ho.
    by rewrite lookup_alter_ne.
  - unfold Add. by apply ErrorOrNil_Done.
Qed.

(** X7.  A nil function among the registered closures makes [Return]
    panic after the closures registered before it have run.  [Defer] accepts
    a nil function without complaint, so the panic comes at [Return]; a nil
    function among the extras, in contrast, is skipped. *)
Theorem nil_deferred_func_panics (fuel eb : nat) (items : list item) s s1 b1
    (fs : list nat) (rest : list ErrorFunc) (w : World) (rs : list error) :
  stash call fuel eb items s = Done (tt, s1) ->
  bags s1 !! eb = Some b1 ->
  defers b1 = (Some <$> fs) ++ None :: rest ->
  run_all call fs (world s1) = (w, rs) ->
  Return call fuel eb items s = Panic
  /\ (forall b, bags s !! eb = Some b -> defers b = Some <$> fs ->
      exists s', Defer eb None s = Done (tt, s')
        /\ bags s' !! eb = Some {| errs := errs b; wrapper := wrapper b;
                                   defers := (Some <$> fs) ++ [None] |}
        /\ (forall w' rs', run_all call fs (world s) = (w', rs') ->
            Return call fuel eb [] s' = Panic))
  /\ stash call fuel eb [ItemFunc None] s1 = Done (tt, s1).
Proof.
  intros Hst Hb1 Hdf Hrun.
  assert (forall s0 b0 rest0 w0 rs0, bags s0 !! eb = Some b0 ->
            defers b0 = (Some <$> fs) ++ None :: rest0 ->
            run_all call fs (world s0) = (w0, rs0) ->
            Return call fuel eb [] s0 = Panic) as Hgen.
  { intros s0 b0 rest0 w0 rs0 Hb0 Hd0 Hr0. unfold Return.
    rewrite (bind_Done _ _ _ _ _ (stash_nil call fuel eb s0)).
    rewrite (bind_Done _ _ _ _ _ (load_Done _ _ _ Hb0)), Hd0.
    unfold bind at 1. rewrite for_each_app.
    erewrite bind_Done; [|apply run_defers; eauto]. done. }
  split_and!.
  - unfold Return. rewrite (bind_Done _ _ _ _ _ Hst).
    rewrite (bind_Done _ _ _ _ _ (load_Done _ _ _ Hb1)), Hdf.
    unfold bind at 1. rewrite for_each_app.
    erewrite bind_Done; [|apply run_defers; eauto]. done.
  - intros b Hb Hd. eexists. split; [by apply Defer_Done|]. simpl.
    split; [by rewrite lookup_insert_eq, Hd|].
    intros w' rs' Hr'. eapply Hgen; simpl; [apply lookup_insert_eq| |done].
    simpl. by rewrite Hd.
  - done.
Qed.

(** *** Registering closures *)

Lemma Defer_all eb fs : forall s b,
  bags s !! eb = Some b ->
  for_each fs (fun f => Defer eb (Some f)) s
  = Done (tt, {| bags := <[eb := {| errs := errs b; wrapper := wrapper b;
                                    defers := defers b ++ (Some <$> fs) |}]> (bags s);
                 world := world s; invoked := invoked s |}).
Proof.
  induction fs as [|f fs IH]; intros s b Hb; simpl.
  - rewrite app_nil_r. destruct s as [h w i]. unfold ret. simpl in *.
    do 3 f_equal. rewrite insert_id; [done|]. by destruct b.
  - rewrite (bind_Done _ _ _ _ _ (Defer_Done _ _ _ _ Hb)).
    erewrite IH; [|simpl; apply lookup_insert_eq]. simpl.
    by rewrite insert_insert_eq, <- (assoc_L (++)).
Qed.

(** X8.  [Defer] calls nothing and changes no stored error: a sequence of
    [Defer] calls appends the closures to the registered ones, in order, and
    a [Return] that follows calls the closures registered earlier first, then
    the new ones, each once. *)
Theorem Defer_registers_in_order (fuel eb : nat) s b (fs0 fs : list nat)
    (w : World) (rs : list error) :
  bags s !! eb = Some b ->
  defers b = Some <$> fs0 ->
  run_all call (fs0 ++ fs) (world s) = (w, rs) ->
  exists s1 s2,
    for_each fs (fun f => Defer eb (Some f)) s = Done (tt, s1)
    /\ invoked s1 = invoked s /\ world s1 = world s
    /\ bags s1 !! eb = Some {| errs := errs b; wrapper := wrapper b;
                               defers := Some <$> (fs0 ++ fs) |}
    /\ (forall o, o <> eb -> bags s1 !! o = bags s !! o)
    /\ Return call fuel eb [] s1
       = Done (if decide (length (errs b ++ filter (fun r => r <> ErrNil) rs) = 0)
               then ErrNil else as_error eb, s2)
    /\ invoked s2 = invoked s ++ fs0 ++ fs
    /\ bags s2 !! eb
       = Some {| errs := errs b ++ filter (fun r => r <> ErrNil) rs;
                 wrapper := wrapper b;
                 defers := Some <$> (fs0 ++ fs) |}.
Proof.
  intros Hb Hd Hrun. do 2 eexists.
  split; [by apply Defer_all|]. simpl. split_and!; try done.
  - by rewrite lookup_insert_eq, Hd, fmap_app.
  - intros o Ho. by rewrite lookup_insert_ne.
  - erewrite (Return_spec call fuel eb []);
      [|apply stash_nil|simpl; apply lookup_insert_eq
       |simpl; rewrite Hd, <- fmap_app; reflexivity|exact Hrun].
    reflexivity.
  - done.
  - simpl. rewrite lookup_alter_eq, lookup_insert_eq. simpl.
    by rewrite Hd, fmap_app.
Qed.

(** *** [Update] *)




(** *** Wrapping a plain error *)

(** X11.  With a wrapper installed, [Wrap] of a plain error inserts what
    the wrapper returns as [Add] would: a plain result is stored as it is, a
    nil result or the receiver itself stores nothing.  The value returned is
    that of [ErrorOrNil]: nil, not the receiver, when the collector is empty
    afterwards. *)
Theorem Wrap_plain_error (n fuel eb i : nat) (t : string) (w : ErrorWrapper)
    s b (l : list error) :
  bags s !! eb = Some b ->
  wrapper b = Some w ->
  2 * n <= fuel ->
  flatten n (bags s) eb (WrapError w (ErrLeaf i t)) = Some l ->
  Wrap call (S fuel) eb (ErrLeaf i t) s
  = Done (if decide (length (errs b ++ l) = 0) then ErrNil else as_error eb,
          grow eb l s)
  /\ (is_leaf (WrapError w (ErrLeaf i t)) -> l = [WrapError w (ErrLeaf i t)])
  /\ (WrapError w (ErrLeaf i t) = ErrNil -> l = [])
  /\ (forall d, WrapError w (ErrLeaf i t) = ErrBagger d eb -> l = [])
  /\ (l = [] -> errs b = [] ->
      Wrap call (S fuel) eb (ErrLeaf i t) s = Done (ErrNil, s)).
Proof.
  intros Hb Hw Hfuel Hfl.
  assert (Wrap call (S fuel) eb (ErrLeaf i t) s
          = Done (if decide (length (errs b ++ l) = 0) then ErrNil else as_error eb,
                  grow eb l s)) as HW.
  { rewrite Wrap_S, (bind_Done _ _ _ _ _ (load_Done _ _ _ Hb)), Hw.
    unfold AsErrorBag.
    destruct (decide (WrapError w (ErrLeaf i t) = ErrNil)) as [Hnil|Hnil].
    - rewrite Hnil in *. destruct n; [done|]. injection Hfl as <-.
      unfold Add. rewrite (ErrorOrNil_Done _ _ _ Hb), grow_nil.
      by rewrite app_nil_r.
    - rewrite (Add_fold call n fuel eb _ [] s b l (world s) [] []); try done.
      by rewrite !app_nil_r, folded_same. }
  split_and!; [done|..].
  - intros Hleaf. destruct (WrapError w (ErrLeaf i t)) as [|i' t'|]; try done.
    destruct n; [done|]. by injection Hfl as <-.
  - intros Hnil. rewrite Hnil in Hfl. destruct n; [done|]. by injection Hfl as <-.
  - intros d Hself. rewrite Hself in Hfl. destruct n; [done|]. simpl in Hfl.
    rewrite decide_True in Hfl by done. by injection Hfl as <-.
  - intros -> Hempty. rewrite HW, grow_nil. by rewrite Hempty.
Qed.

(** *** Installing a wrapper *)

(** X12.  The method [ErrorWrapper] replaces the wrapper and nothing else,
    and [WithWrapper] makes a new empty collector with the wrapper installed.
    After a wrapper is installed, [Wrap] of a plain error stores what the
    wrapper returns; after nil is installed, [Wrap] stores the error itself
    and is [Add]. *)
Theorem ErrorWrapper_governs_Wrap (fuel eb i : nat) (t : string)
    (w0 : option ErrorWrapper) s b :
  bags s !! eb = Some b ->
  exists s0,
    set_ErrorWrapper eb w0 s = Done (tt, s0)
    /\ bags s0 !! eb = Some {| errs := errs b; wrapper := w0; defers := defers b |}
    /\ (forall o, o <> eb -> bags s0 !! o = bags s !! o)
    /\ (exists p s1,
          WithWrapper w0 s = Done (p, s1)
          /\ bags s !! p = None
          /\ bags s1 !! p = Some {| errs := []; wrapper := w0; defers := [] |}
          /\ forall o, o <> p -> bags s1 !! o = bags s !! o)
    /\ match w0 with
       | None =>
           Wrap call (S (S fuel)) eb (ErrLeaf i t) s0
           = Done (as_error eb, grow eb [ErrLeaf i t] s0)
           /\ Wrap call (S (S fuel)) eb (ErrLeaf i t) s0
              = Add call (S fuel) (Some eb) (ErrLeaf i t) [] s0
       | Some w =>
           is_leaf (WrapError w (ErrLeaf i t)) ->
           Wrap call (S (S fuel)) eb (ErrLeaf i t) s0
           = Done (as_error eb, grow eb [WrapError w (ErrLeaf i t)] s0)
       end.
Proof.
  intros Hb.
  set (s0 := {| bags := <[eb := {| errs := errs b; wrapper := w0;
                                   defers := defers b |}]> (bags s);
                world := world s; invoked := invoked s |}).
  exists s0. split.
  { unfold set_ErrorWrapper. by rewrite (bind_Done _ _ _ _ _ (load_Done _ _ _ Hb)). }
  assert (bags s0 !! eb = Some {| errs := errs b; wrapper := w0; defers := defers b |})
    as Hb0 by apply lookup_insert_eq.
  split; [done|]. split; [intros o Ho; by apply lookup_insert_ne|].
  split.
  { do 2 eexists. split; [reflexivity|]. simpl. split_and!.
    - apply fresh_not_allocated.
    - by rewrite lookup_insert_eq.
    - intros o Ho. by rewrite !lookup_insert_ne. }
  assert (forall e', is_leaf e' ->
            Add call (S fuel) (Some eb) e' [] s0
            = Done (as_error eb, grow eb [e'] s0)) as HAdd.
  { intros e' He'. destruct e' as [|i' t'|]; try done.
    unfold Add. unfold bind at 1, ret at 1.
    rewrite (bind_Done _ _ _ _ _ (add_leaf fuel eb i' t' s0 ltac:(eauto))).
    unfold stash, for_each. unfold bind at 1, ret at 1.
    rewrite (ErrorOrNil_Done _ _ _ (lookup_grow_eq _ _ _ _ Hb0)). simpl.
    rewrite decide_False; [done|]. rewrite length_app. simpl. lia. }
  destruct w0 as [w|].
  - intros Hleaf.
    rewrite Wrap_S, (bind_Done _ _ _ _ _ (load_Done _ _ _ Hb0)).
    by apply HAdd.
  - assert (Wrap call (S (S fuel)) eb (ErrLeaf i t) s0
            = Add call (S fuel) (Some eb) (ErrLeaf i t) [] s0) as HWA.
    { by rewrite Wrap_S, (bind_Done _ _ _ _ _ (load_Done _ _ _ Hb0)). }
    split; [|done]. rewrite HWA. by apply HAdd.
Qed.

(** *** A collector that stores itself *)





Lemma add_of_self_storing_never_returns eb C b d :
  C <> eb -> ErrBagger d eb ∈ errs b ->
  forall fuel,
    (forall d' s r, bags s !! eb = Some b ->
       add fuel C (ErrBagger d' eb) s <> Done r)
    /\ (forall s r, bags s !! eb = Some b -> Merge fuel C (Some eb) s <> Done r).
Proof.
  intros Hne Hin. induction fuel as [|fuel [IHadd IHMerge]]; [done|]. split.
  - intros d' s r Hb. rewrite add_S. unfold AsErrorBag. by apply IHMerge.
  - intros s r Hb. rewrite Merge_S. rewrite decide_True by done.
    intros (u & s1 & H1 & _)%bind_Done_inv.
    apply bind_Done_inv in H1 as (b0 & s0 & (-> & Hb0)%load_inv & H1).
    rewrite Hb in Hb0. injection Hb0 as <-.
    revert H1. apply (for_each_never_Done_inv _
      (fun s => bags s !! eb = Some b) (ErrBagger d eb)); [done| |by auto|done].
    intros y s2 r2 s3 HI (l & -> & _)%add_appends. by rewrite lookup_grow_ne.
Qed.

(** X13.  [Return] appends what a registered closure returns without the
    checks of [add]: when the closure returns the collector itself, the
    collector ends up storing itself.  From then on [Error] on it does not
    terminate, and neither does merging or adding it into another collector.
    The same closure passed as an extra goes through [add] and stores
    nothing. *)
Theorem Return_can_store_the_collector_itself (fuel eb d f : nat)
    (items : list item) s s1 b1 (w : World) :
  stash call fuel eb items s = Done (tt, s1) ->
  bags s1 !! eb = Some b1 ->
  errs b1 = [] ->
  defers b1 = [Some f] ->
  call f (world s1) = (w, ErrBagger d eb) ->
  exists s2,
    Return call fuel eb items s = Done (as_error eb, s2)
    /\ bags s2 !! eb = Some (set_errs b1 [ErrBagger d eb])
    /\ Size eb s2 = Done (1, s2)
    /\ (forall fuel', Error fuel' eb s2 = OutOfFuel)
    /\ (forall fuel' C r, C <> eb -> Merge fuel' C (Some eb) s2 <> Done r)
    /\ (forall fuel' C r, C <> eb ->
          Add call fuel' (Some C) (as_error eb) [] s2 <> Done r)
    /\ exists s3,
         stash call (S (S fuel)) eb [ItemFunc (Some f)] s1 = Done (tt, s3)
         /\ bags s3 !! eb = Some b1.
Proof.
  intros Hst Hb1 Hempty Hd Hcall.
  pose proof (Return_spec call fuel eb items s s1 b1 [f] w [ErrBagger d eb]
                Hst Hb1 Hd) as HR.
  simpl in HR. rewrite Hcall in HR. specialize (HR eq_refl).
  rewrite filter_cons_True in HR by done. rewrite filter_nil in HR.
  rewrite Hempty in HR. simpl in HR.
  set (s2 := folded eb [ErrBagger d eb] w [f] s1) in *.
  assert (bags s2 !! eb = Some (set_errs b1 [ErrBagger d eb])) as Hb2.
  { unfold s2. rewrite (lookup_folded_eq _ _ _ _ _ _ Hb1). by rewrite Hempty. }
  exists s2. split_and!; try done.
  - by rewrite (Size_Done _ _ _ Hb2).
  - by apply (Error_of_self_diverges eb d _ _ Hb2).
  - intros fuel' C r HC.
    apply (add_of_self_storing_never_returns eb C (set_errs b1 [ErrBagger d eb]) d);
      [done|simpl; by apply list_elem_of_singleton|done].
  - intros fuel' C r HC HA.
    assert ((add fuel' C (as_error eb) ;;; ErrorOrNil (Some C)) s2 = Done r) as HA'
      by exact HA.
    destruct r as [r s3].
    apply bind_Done_inv in HA' as (r1 & s4 & Ha & _). revert Ha.
    apply (add_of_self_storing_never_returns eb C (set_errs b1 [ErrBagger d eb]) d);
      [done|simpl; by apply list_elem_of_singleton|done].
  - exists (folded eb [] w [f] s1). split.
    + unfold stash, for_each. unfold bind at 1. unfold bind at 1.
      unfold invoke. rewrite Hcall. unfold bind at 1.
      rewrite add_S. unfold AsErrorBag. rewrite Merge_S.
      rewrite decide_False by naive_solver. unfold bind, ret, folded.
      by rewrite grow_nil.
    + rewrite (lookup_folded_eq _ _ _ _ _ _ Hb1). by rewrite set_errs_id.
Qed.

(** *** Visiting *)

Lemma Add_leaf fuel o i t s b :
  bags s !! o = Some b ->
  Add call (S fuel) (Some o) (ErrLeaf i t) [] s
  = Done (as_error o, grow o [ErrLeaf i t] s).
Proof.
  intros Hb. unfold Add. unfold bind at 1, ret at 1.
  rewrite (bind_Done _ _ _ _ _ (add_leaf fuel o i t s ltac:(eauto))).
  unfold stash, for_each. unfold bind at 1, ret at 1.
  rewrite (ErrorOrNil_Done _ _ _ (lookup_grow_eq _ _ _ _ Hb)). simpl.
  rewrite decide_False; [done|]. rewrite length_app. simpl. lia.
Qed.

Lemma for_each_Add_leaves fuel o l0 : forall s,
  Forall is_leaf l0 -> is_Some (bags s !! o) ->
  for_each l0 (fun e => Add call (S fuel) (Some o) e []) s
  = Done (tt, grow o l0 s).
Proof.
  induction l0 as [|e l0 IH]; intros s Hl0 [b Hb]; simpl.
  - by rewrite grow_nil.
  - apply Forall_cons in Hl0 as [He Hl0]. destruct e as [|i t|]; try done.
    rewrite (bind_Done _ _ _ _ _ (Add_leaf fuel o i t s b Hb)).
    rewrite (IH _ Hl0) by (apply lookup_grow_is_Some; eauto).
    by rewrite grow_grow.
Qed.

(** X14.  [Visit] runs the visitor on the errors stored when it starts, in
    order.  A visitor that adds what it sees to a collector [o] copies the
    plain errors of the visited collector into [o]; the function [Visit] does
    the same for any value that is the collector and nothing for a value that
    is not one.  With [o] the visited collector itself this doubles it, where
    [Merge] of a collector into itself does nothing. *)
Theorem Visit_with_Add_copies (fuel eb o d i : nat) (t : string) s b :
  bags s !! eb = Some b ->
  is_Some (bags s !! o) ->
  Forall is_leaf (errs b) ->
  Visit eb (fun e => Add call (S fuel) (Some o) e []) s
  = Done (tt, grow o (errs b) s)
  /\ Visit_error (ErrBagger d eb) (fun e => Add call (S fuel) (Some o) e []) s
     = Done (tt, grow o (errs b) s)
  /\ Visit_error (ErrLeaf i t) (fun e => Add call (S fuel) (Some o) e []) s
     = Done (tt, s)
  /\ Visit_error ErrNil (fun e => Add call (S fuel) (Some o) e []) s
     = Done (tt, s)
  /\ (Visit eb (fun e => Add call (S fuel) (Some eb) e []) ;;; Size eb) s
     = Done (2 * length (errs b), grow eb (errs b) s)
  /\ (Merge (S fuel) eb (Some eb) ;;; Size eb) s = Done (length (errs b), s).
Proof.
  intros Hb Ho Hleaf.
  assert (forall o', is_Some (bags s !! o') ->
            Visit eb (fun e => Add call (S fuel) (Some o') e []) s
            = Done (tt, grow o' (errs b) s)) as HV.
  { intros o' Ho'. unfold Visit.
    rewrite (bind_Done _ _ _ _ _ (load_Done _ _ _ Hb)).
    by apply for_each_Add_leaves. }
  split_and!; try done.
  - by apply HV.
  - unfold Visit_error, AsErrorBag. by apply HV.
  - rewrite (bind_Done _ _ _ _ _ (HV eb ltac:(eauto))).
    rewrite (Size_Done _ _ _ (lookup_grow_eq _ _ _ _ Hb)). simpl.
    rewrite length_app. do 2 f_equal. lia.
  - rewrite Merge_S. rewrite decide_False by naive_solver.
    unfold bind at 1. unfold bind at 1. unfold ret at 1. unfold ret at 1.
    by apply Size_Done.
Qed.

(** *** The first revision's [Wrap] *)



















Lemma Add_no_extras_inv fuel eb err s r s' :
  err <> ErrNil ->
  Add call fuel (Some eb) err [] s = Done (r, s') ->
  exists r', add fuel eb err s = Done (r', s').
Proof.
  intros Hnil HA.
  assert ((add fuel eb err ;;; ErrorOrNil (Some eb)) s = Done (r, s')) as HA'
    by (by destruct err).
  apply bind_Done_inv in HA' as (r1 & s2 & Ha & HE).
  apply ErrorOrNil_inv in HE as [-> _]. eauto.
Qed.

(** X16.  Whenever the second revision's [Wrap] returns, the first
    revision's [Wrap] leaves the same state; it returns the receiver in every
    case. *)
Theorem first_revision_Wrap_agrees (fuel eb : nat) err s r s' :
  Wrap call fuel eb err s = Done (r, s') ->
  v1.Wrap (S fuel) eb err s = Done (as_error eb, s').
Proof.
  revert eb err s r s'. induction fuel as [|fuel IH]; intros eb err s r s'; [done|].
  rewrite Wrap_S, (v1_Wrap_S (S fuel)).
  assert (forall e' x s1, Add call fuel (Some eb) e' [] s = Done (x, s1) ->
            v1.Add (S fuel) eb e' s = Done (as_error eb, s1)) as HAdd.
  { intros e' x s1 HA. destruct (decide (e' = ErrNil)) as [->|Hnil].
    - by apply ErrorOrNil_inv in HA as [-> _].
    - apply Add_no_extras_inv in HA as [r' Ha]; [|done].
      apply (v1_simulates fuel) in Ha as [Hv _].
      by apply (v1_Add_more_fuel fuel). }
  destruct err as [|i t|d o]; [by intros [= _ <-]|..].
  - intros (b & s1 & (-> & Hb)%load_inv & H)%bind_Done_inv.
    rewrite (bind_Done _ _ _ _ _ (load_Done _ _ _ Hb)).
    destruct (wrapper b) as [w|]; by eapply HAdd.
  - intros (b & s1 & (-> & Hb)%load_inv & H)%bind_Done_inv.
    rewrite (bind_Done _ _ _ _ _ (load_Done _ _ _ Hb)).
    destruct (wrapper b) as [w|]; [|by eapply HAdd].
    unfold AsErrorBag in *.
    apply bind_Done_inv in H as ([] & s1 & H1 & [= _ <-]).
    erewrite bind_Done; [reflexivity|]. case_decide; [|done].
    unfold Visit in *.
    apply bind_Done_inv in H1 as (bo & ? & (-> & Hbo)%load_inv & H1).
    rewrite (bind_Done _ _ _ _ _ (load_Done _ _ _ Hbo)).
    revert H1. apply for_each_sim. intros x s0 r0 s0' Hx.
    apply IH in Hx. eauto.
Qed.

(** *** Sorting keeps the size and the text *)

Section SortingMore.
Variable sort_Slice : forall A : Type, list A -> (A -> A -> bool) -> list A.
Hypothesis sort_Slice_perm :
  forall A (l : list A) less, sort_Slice A l less ≡ₚ l.


End SortingMore.

End MoreProofs.

(** ** The further properties at the sample instance *)

Lemma read_views_agree_witness :
  exists (h : bool) (r : error),
    HasErrors 1 sample_state = Done (h, sample_state)
    /\ Size 1 sample_state = Done (2, sample_state)
    /\ ErrorOrNil (Some 1) sample_state = Done (r, sample_state)
    /\ (r <> ErrNil -> AsErrorBag r = Some 1).
Proof.
  destruct (read_views_agree 1 sample_state sample_A eq_refl)
    as (h & r & Hh & Hsize & _ & Hr & _ & _ & _ & Hid & _).
  exists h, r. split_and!; [exact Hh|exact Hsize|exact Hr|exact Hid].
Defined.

Lemma New_allocates_fresh_witness :
  exists p s',
    New sample_call 2 (ErrLeaf 1 "an error") [ItemFunc (Some 1)] fresh_state
    = Done (Some p, s')
    /\ bags fresh_state !! p = None
    /\ bags s' !! p
       = Some {| errs := [ErrLeaf 1 "an error"; ErrLeaf 101 "close failed"];
                 wrapper := None; defers := [] |}.
Proof.
  destruct (New_allocates_fresh sample_call 1 2 (ErrLeaf 1 "an error")
              [ItemFunc (Some 1)] fresh_state 1 [1] [ErrLeaf 101 "close failed"])
    as (p & s' & HN & Hfresh & Hb & _);
    [reflexivity | discriminate | simpl; lia | lia | vm_compute; reflexivity |].
  exists p, s'. split_and!; [exact HN|exact Hfresh|exact Hb].
Defined.

Lemma Add_on_nil_receiver_allocates_witness :
  exists p s',
    Add sample_call 4 None (ErrBagger 0 2) [] sample_state = Done (as_error p, s')
    /\ bags sample_state !! p = None
    /\ bags s' !! p = Some {| errs := errs sample_B; wrapper := None; defers := [] |}
    /\ bags s' !! 2 = Some sample_B.
Proof.
  destruct (Add_on_nil_receiver_allocates sample_call 2 4 (ErrBagger 0 2) []
              sample_state (errs sample_B) 0 [] [])
    as (_ & p & s' & HA & Hfresh & Hb & Hothers & _);
    [discriminate | simpl; lia | vm_compute; reflexivity | reflexivity |].
  exists p, s'. split_and!; [exact HA|exact Hfresh|exact Hb|].
  rewrite Hothers; [reflexivity|].
  intros Heq. rewrite <- Heq in Hfresh. discriminate Hfresh.
Defined.

Lemma Add_only_appends_plain_errors_witness :
  exists r s' l b',
    Add sample_call 4 (Some 1) (ErrBagger 1 2) [ItemFunc (Some 1)] sample_state
    = Done (r, s')
    /\ bags s' !! 1 = Some b'
    /\ errs b' = errs sample_A ++ l
    /\ Forall is_leaf l
    /\ bags s' !! 2 = Some sample_B.
Proof.
  eassert (Add sample_call 4 (Some 1) (ErrBagger 1 2) [ItemFunc (Some 1)]
             sample_state = Done (_, _)) as H by (vm_compute; reflexivity).
  destruct (Add_only_appends_plain_errors sample_call 4 1 _ _ sample_state
              sample_A _ _ eq_refl H)
    as (l & b' & fs & Hb' & He & Hl & _ & _ & Hothers & _).
  do 2 eexists. exists l, b'.
  split_and!; [exact H|exact Hb'|exact He|exact Hl|].
  rewrite Hothers; [reflexivity|discriminate].
Defined.

Lemma Wrap_only_appends_plain_errors_witness :
  exists r s' l b',
    Wrap sample_call 5 1 (ErrBagger 0 2) sample_state = Done (r, s')
    /\ bags s' !! 1 = Some b'
    /\ errs b' = errs sample_A ++ l
    /\ Forall is_leaf l
    /\ invoked s' = [].
Proof.
  eassert (Wrap sample_call 5 1 (ErrBagger 0 2) sample_state = Done (_, _)) as H
    by (vm_compute; reflexivity).
  destruct (Wrap_only_appends_plain_errors sample_call 5 1 _ sample_state
              sample_A _ _ eq_refl H)
    as (l & b' & Hb' & He & Hl & _ & _ & _ & Hinv & _).
  do 2 eexists. exists l, b'.
  split_and!; [exact H|exact Hb'|exact He|exact Hl|exact Hinv].
Defined.

Lemma bad_extra_panics_witness :
  stash sample_call 2 1 [ItemError (ErrLeaf 7 "x"); ItemOther; ItemNil] sample_state
  = Panic
  /\ Add sample_call 2 (Some 1) (ErrLeaf 8 "y")
       [ItemError (ErrLeaf 7 "x"); ItemOther; ItemNil] sample_state
     = Panic
  /\ Add sample_call 2 (Some 1) ErrNil
       [ItemError (ErrLeaf 7 "x"); ItemOther; ItemNil] sample_state
     = Done (as_error 1, sample_state).
Proof.
  destruct (bad_extra_panics sample_call 1 2 1 (ErrLeaf 8 "y")
              [ItemError (ErrLeaf 7 "x")] [ItemNil] sample_state sample_A
              0 [] [ErrLeaf 8 "y"] [ErrLeaf 7 "x"])
    as (_ & Hst & _ & _ & HAdd & HAddnil & _);
    [reflexivity | simpl; lia | reflexivity |].
  split_and!; [exact Hst|apply HAdd; [discriminate|reflexivity]|exact HAddnil].
Defined.

Lemma nil_deferred_func_panics_witness :
  Return sample_call 2 1 [] nil_defer_state = Panic
  /\ stash sample_call 2 1 [ItemFunc None] nil_defer_state
     = Done (tt, nil_defer_state).
Proof.
  destruct (nil_deferred_func_panics sample_call 2 1 [] nil_defer_state
              nil_defer_state
              {| errs := []; wrapper := None; defers := [Some 0; None] |}
              [0] [] 1 [ErrNil])
    as (HR & _ & Hst); [reflexivity..|].
  split; [exact HR|exact Hst].
Defined.

Lemma Defer_registers_in_order_witness :
  exists s1 s2,
    for_each [2; 3] (fun f => Defer 1 (Some f)) sample_state = Done (tt, s1)
    /\ invoked s1 = []
    /\ Return sample_call 2 1 [] s1 = Done (as_error 1, s2)
    /\ invoked s2 = [1; 0; 2; 3].
Proof.
  destruct (Defer_registers_in_order sample_call 2 1 sample_state sample_A
              [1; 0] [2; 3] 4
              [ErrLeaf 101 "close failed"; ErrNil; ErrLeaf 102 "close failed";
               ErrLeaf 103 "close failed"])
    as (s1 & s2 & HD & Hinv & _ & _ & _ & HR & Hinv2 & _); [reflexivity..|].
  exists s1, s2. split_and!; [exact HD|exact Hinv|exact HR|exact Hinv2].
Defined.



Lemma Wrap_plain_error_witness :
  Wrap sample_call 3 1 (ErrLeaf 7 "x") sample_state
  = Done (as_error 1, grow 1 [ErrLeaf 7 "tagged: x"] sample_state).
Proof.
  destruct (Wrap_plain_error sample_call 1 2 1 7 "x" tagger sample_state sample_A
              [ErrLeaf 7 "tagged: x"])
    as (HW & _); [reflexivity | reflexivity | simpl; lia | reflexivity |].
  exact HW.
Defined.

Lemma ErrorWrapper_governs_Wrap_witness :
  exists s0,
    set_ErrorWrapper 2 (Some tagger) sample_state = Done (tt, s0)
    /\ Wrap sample_call 2 2 (ErrLeaf 7 "x") s0
       = Done (as_error 2, grow 2 [ErrLeaf 7 "tagged: x"] s0).
Proof.
  destruct (ErrorWrapper_governs_Wrap sample_call 0 2 7 "x" (Some tagger)
              sample_state sample_B eq_refl)
    as (s0 & Hset & _ & _ & _ & HW).
  exists s0. split; [exact Hset|]. apply HW. exact I.
Defined.

Lemma Return_can_store_the_collector_itself_witness :
  exists s2,
    Return sample_call 2 3 [] looping_state = Done (as_error 3, s2)
    /\ Size 3 s2 = Done (1, s2)
    /\ Error 100 3 s2 = OutOfFuel
    /\ Merge 100 1 (Some 3) s2 <> Done (as_error 1, s2).
Proof.
  destruct (Return_can_store_the_collector_itself sample_call 2 3 0 9 []
              looping_state looping_state
              {| errs := []; wrapper := None; defers := [Some 9] |} 1)
    as (s2 & HR & _ & HS & HE & HM & _); [reflexivity..|].
  exists s2. split_and!; [exact HR|exact HS|apply HE|apply HM; discriminate].
Defined.

Lemma Visit_with_Add_copies_witness :
  Visit 2 (fun e => Add sample_call 1 (Some 1) e []) sample_state
  = Done (tt, grow 1 (errs sample_B) sample_state)
  /\ (Visit 2 (fun e => Add sample_call 1 (Some 2) e []) ;;; Size 2) sample_state
     = Done (2 * 3, grow 2 (errs sample_B) sample_state).
Proof.
  destruct (Visit_with_Add_copies sample_call 0 2 1 0 0 "" sample_state sample_B)
    as (HV & _); [reflexivity | by eexists | repeat constructor |].
  destruct (Visit_with_Add_copies sample_call 0 2 2 0 0 "" sample_state sample_B)
    as (_ & _ & _ & _ & Hdouble & _);
    [reflexivity | by eexists | repeat constructor |].
  split; [exact HV|exact Hdouble].
Defined.

Lemma first_revision_Add_agrees_witness :
  v1.Add 4 1 (ErrBagger 0 2) sample_state
  = Done (as_error 1, grow 1 (errs sample_B) sample_state)
  /\ exists r, add 4 1 (ErrBagger 0 2) sample_state
              = Done (r, grow 1 (errs sample_B) sample_state).
Proof.
  destruct (first_revision_Add_agrees 2 4 1 (ErrBagger 0 2) sample_state sample_A
              (errs sample_B))
    as (Hv1 & Hv2 & _); [reflexivity | simpl; lia | reflexivity |].
  split; [exact Hv1|exact Hv2].
Defined.

Lemma first_revision_Wrap_agrees_witness :
  exists r s',
    Wrap sample_call 5 1 (ErrBagger 0 2) sample_state = Done (r, s')
    /\ v1.Wrap 6 1 (ErrBagger 0 2) sample_state = Done (as_error 1, s').
Proof.
  eassert (Wrap sample_call 5 1 (ErrBagger 0 2) sample_state = Done (_, _)) as H
    by (vm_compute; reflexivity).
  do 2 eexists. split; [exact H|].
  exact (first_revision_Wrap_agrees sample_call 5 1 _ sample_state _ _ H).
Defined.


End errbag.
